(** * Champion round-based analysis: the reduce stage, verified

    A shallow embedding of
    [src/analysis/champion_round_based_analysis/champion_round_based_analysis.py]:
    the MongoDB pipeline (the map stage), the loop that compiles the
    [results] dictionary (the reduce stage) and the final pass that turns the
    cumulative placements into averages.

    Python dictionaries are finite maps ([gmap]); a [KeyError] or a
    [ZeroDivisionError] is [None] in the option monad.  The value stored under
    ['avg_place'] is a Python [int] while the loop accumulates and a [float]
    once [/=] has run: floats are modelled by exact rationals ([Qc]). *)

From Stdlib Require Import Ascii QArith Qcanon Lqa.
From stdpp Require Import base numbers option list strings gmap fin_maps fin_sets.

Local Open Scope Z_scope.

(** ** Numbers stored under ['avg_place'] *)

Inductive number :=
  | Int (z : Z)
  | Float (q : Qc).

Definition to_Qc (x : number) : Qc :=
  match x with
  | Int z => Qc_of_Z z
  | Float q => q
  end.

(** [x += place], with [place] an [int]. *)
Definition num_add (x : number) (place : Z) : number :=
  match x with
  | Int z => Int (z + place)
  | Float q => Float (q + Qc_of_Z place)%Qc
  end.

(** [x / c], with [c] an [int]: true division, [ZeroDivisionError] on [c = 0].
    The quotient is exact: the rounding to a float, and the [OverflowError]
    Python raises on a quotient or a count beyond the range of the floats,
    are outside the model; the statements below that depend on the division
    succeeding assume the values in that range. *)
Definition truediv (x : number) (c : Z) : option number :=
  if decide (c = 0) then None else Some (Float (to_Qc x / Qc_of_Z c)%Qc).

(** ** The results dictionary *)

Record aggregate := Aggregate { count : Z; avg_place : number }.

(** Outer keys: the string ['total'] or the integer [last_round]. *)
Inductive round_key :=
  | KTotal
  | KRound (r : Z).

Global Instance round_key_eq_dec : EqDecision round_key.
Proof. solve_decision. Defined.

Global Instance round_key_countable : Countable round_key.
Proof.
  refine (inj_countable'
    (λ k, match k with KTotal => None | KRound r => Some r end)
    (λ o, match o with None => KTotal | Some r => KRound r end) _).
  by intros [].
Defined.

Abbreviation bucket := (gmap string aggregate).
Abbreviation results := (gmap round_key (gmap string aggregate)).

(** [results[rk][k]], when both keys are present. *)
Definition get (t : results) (rk : round_key) (k : string) : option aggregate :=
  t !! rk ≫= (.!! k).

(** Lines 140-147. *)
Definition init : results :=
  {[ KTotal := {[ "total"%string := Aggregate 0 (Int 0) ]} ]}.

(** ** Shaped records (the documents the pipeline yields) *)

Record player := Player {
  num_units : Z;
  units : list string;
  last_round : Z;
  placement : Z
}.

(** ** Key derivation: [x.split('_')[-1]] *)

Definition underscore : ascii := "_"%char.

(** [s.split('_')]: never the empty list. *)
Fixpoint split_underscore (s : string) : list string :=
  match s with
  | EmptyString => [EmptyString]
  | String c rest =>
      if Ascii.eqb c underscore then EmptyString :: split_underscore rest
      else match split_underscore rest with
           | [] => [String c EmptyString]
           | seg :: segs => String c seg :: segs
           end
  end.

Definition unit_name (x : string) : string :=
  List.last (split_underscore x) EmptyString.

(** Lines 191-197. *)
Definition keys_list (p : player) : list string := unit_name <$> units p.

(** ** The reduce stage *)

(** [len(set(player['units'])) != num_units] *)
Definition has_duplicate_units (p : player) : Prop :=
  Z.of_nat (size (list_to_set (units p) : gset string)) ≠ num_units p.

Global Instance has_duplicate_units_dec p : Decision (has_duplicate_units p).
Proof. unfold has_duplicate_units. apply _. Defined.

Definition accepted (p : player) : Prop := ¬ has_duplicate_units p.

Definition fresh (place : Z) : aggregate := Aggregate 1 (Int place).

Definition bump (place : Z) (a : aggregate) : aggregate :=
  Aggregate (count a + 1) (num_add (avg_place a) place).

(** [results[rk][k]['count'] += 1; results[rk][k]['avg_place'] += place]:
    a [KeyError] when [rk] or [k] is missing. *)
Definition incr (rk : round_key) (k : string) (place : Z) (t : results)
  : option results :=
  b ← t !! rk;
  a ← b !! k;
  Some (<[rk := <[k := bump place a]> b]> t).

(** [if not key in results[rk]: results[rk][key] = {...} else: ... += ...] *)
Definition add_key (rk : round_key) (k : string) (place : Z) (t : results)
  : option results :=
  b ← t !! rk;
  match b !! k with
  | None => Some (<[rk := <[k := fresh place]> b]> t)
  | Some a => Some (<[rk := <[k := bump place a]> b]> t)
  end.

(** Lines 200-217: [for key in keys_list]. *)
Fixpoint add_keys (lr : Z) (place : Z) (keys : list string) (t : results)
  : option results :=
  match keys with
  | [] => Some t
  | key :: rest =>
      t1 ← add_key (KRound lr) key place t;
      t2 ← add_key KTotal key place t1;
      add_keys lr place rest t2
  end.

(** Lines 170-179. *)
Definition round_total (lr : Z) (place : Z) (t : results) : option results :=
  match t !! KRound lr with
  | None => Some (<[KRound lr := {[ "total"%string := fresh place ]}]> t)
  | Some _ => incr (KRound lr) "total" place t
  end.

(** The body of [for player in query] (lines 149-217). *)
Definition fold_player (t : results) (p : player) : option results :=
  if decide (has_duplicate_units p) then Some t
  else
    let place := placement p in
    t1 ← incr KTotal "total" place t;
    let lr := last_round p in
    t2 ← round_total lr place t1;
    add_keys lr place (keys_list p) t2.

(** [for player in query]. *)
Fixpoint reduce (t : results) (query : list player) : option results :=
  match query with
  | [] => Some t
  | p :: rest => t' ← fold_player t p; reduce t' rest
  end.

(** ** The final pass (lines 219-222) *)

(** [nested_dictionary['avg_place'] /= nested_dictionary['count']] *)
Definition finalize_aggregate (a : aggregate) : option aggregate :=
  q ← truediv (avg_place a) (count a);
  Some (Aggregate (count a) q).

(** [for nested_key, nested_dictionary in dictionary.items()]: the entries
    are replaced in place. *)
Definition finalize_bucket_from (b0 b : bucket) : option bucket :=
  map_fold (λ k a acc, b' ← acc; a' ← finalize_aggregate a; Some (<[k := a']> b'))
           (Some b0) b.

Definition finalize_bucket (b : bucket) : option bucket :=
  finalize_bucket_from b b.

(** [for key, dictionary in results.items()] *)
Definition finalize_from (t0 t : results) : option results :=
  map_fold (λ rk b acc, t' ← acc; b' ← finalize_bucket b; Some (<[rk := b']> t'))
           (Some t0) t.

Definition finalize (t : results) : option results := finalize_from t t.

(** The whole reduce stage, from the seeded dictionary to the averages. *)
Definition analysis (query : list player) : option results :=
  reduce init query ≫= finalize.

(** ** The map stage: the MongoDB pipeline (lines 32-74) *)

(** What the pipeline reads of a stored match. *)
Record unit_entry := UnitEntry { character_id : string }.

Record participant := Participant {
  p_units : list unit_entry;
  p_last_round : Z;
  p_placement : Z
}.

Record match_doc := MatchDoc {
  queue_id : Z;
  participants : list participant
}.

(** The [$nin] list of line 53. *)
Definition excluded_rounds : list Z :=
  [11; 15; 18; 22; 25; 29; 32; 36; 39; 43; 46; 50].

Definition pipeline (matches : list match_doc) : list player :=
  (* { "$match": { "info.queue_id" : 1100 } } *)
  let ranked := filter (λ m, queue_id m = 1100) matches in
  (* { "$unwind" : "$info.participants" } *)
  let unwound := ranked ≫= participants in
  (* { '$addFields' : { 'num_units' : { '$size' : ... } } } *)
  let sized := (λ x, (Z.of_nat (length (p_units x)), x)) <$> unwound in
  (* { '$match' : { 'num_units' : { '$gte' : 6 } } } *)
  let fielded := filter (λ nx, 6 ≤ nx.1) sized in
  (* { '$match' : { 'info.participants.last_round' : { '$nin' : [...] } } } *)
  let fought := filter (λ nx, p_last_round nx.2 ∉ excluded_rounds) fielded in
  (* the [$map] to [character_id] and the [$project] *)
  (λ nx, Player nx.1 (character_id <$> p_units nx.2)
                (p_last_round nx.2) (p_placement nx.2)) <$> fought.

(** * The vocabulary of the statements *)

(** The effect of one increment on an entry that may be missing. *)
Definition hit (place : Z) (o : option aggregate) : option aggregate :=
  Some (from_option (bump place) (fresh place) o).

(** Every bucket holds the key ['total']. *)
Definition has_totals (t : results) : Prop :=
  ∀ rk b, t !! rk = Some b → is_Some (b !! "total"%string).

(** The dictionaries the loop can run on without a [KeyError]. *)
Definition well_formed (t : results) : Prop :=
  is_Some (t !! KTotal) ∧ has_totals t.

(** [t'] is [t] with the entry [(rk, k)] incremented once, the bucket being
    created when it was missing. *)
Definition hits_once (rk : round_key) (k : string) (place : Z)
    (t t' : results) : Prop :=
  (∀ rk' k', get t' rk' k' =
     if decide ((rk', k') = (rk, k)) then hit place (get t rk k)
     else get t rk' k') ∧
  (∀ rk', is_Some (t' !! rk') ↔ rk' = rk ∨ is_Some (t !! rk')).

Abbreviation target := (round_key * string)%type.

(** How often [x] occurs among the targets [tg]. *)
Definition mult (tg : list target) (x : target) : nat :=
  length (filter (λ y, y = x) tg).

(** [t'] is [t] after one increment per element of [tg]. *)
Definition effect (tg : list target) (place : Z) (t t' : results) : Prop :=
  (∀ rk k, get t' rk k =
     Nat.iter (mult tg (rk, k)) (hit place) (get t rk k)) ∧
  (∀ rk, is_Some (t' !! rk) ↔ is_Some (t !! rk) ∨ rk ∈ tg.*1).

(** The targets of the key loop. *)
Definition key_targets (lr : Z) (keys : list string) : list target :=
  keys ≫= λ k, [(KRound lr, k); (KTotal, k)].

(** Every increment one accepted record causes, in the order of the loop body. *)
Definition targets (p : player) : list target :=
  (KTotal, "total"%string) :: (KRound (last_round p), "total"%string)
    :: key_targets (last_round p) (keys_list p).

(** What one record does to the entry [x]. *)
Definition apply_player (p : player) (x : target) (o : option aggregate)
  : option aggregate :=
  if decide (has_duplicate_units p) then o
  else Nat.iter (mult (targets p) x) (hit (placement p)) o.

Definition apply_all (l : list player) (x : target) (o : option aggregate)
  : option aggregate :=
  foldl (λ o p, apply_player p x o) o l.

(** The accepted records that touch the bucket [rk]. *)
Definition touches (rk : round_key) (p : player) : Prop :=
  accepted p ∧ (rk = KTotal ∨ rk = KRound (last_round p)).

(** The number of increments of the entry [x] over the stream [l]. *)
Definition incs (l : list player) (x : target) : nat :=
  sum_list ((λ p, if decide (has_duplicate_units p) then 0%nat
                  else mult (targets p) x) <$> l).

(** The placements added to the entry [x] over the stream [l]. *)
Definition psum (l : list player) (x : target) : Z :=
  foldr Z.add 0
    ((λ p, if decide (has_duplicate_units p) then 0
           else Z.of_nat (mult (targets p) x) * placement p) <$> l).

(** The entry after [n] increments that added [s] in all; [seed] tells the
    entry present from the start. *)
Definition entry (seed : bool) (n : nat) (s : Z) : option aggregate :=
  if seed then Some (Aggregate (Z.of_nat n) (Int s))
  else match n with
       | O => None
       | S _ => Some (Aggregate (Z.of_nat n) (Int s))
       end.

Definition seeded (x : target) : bool :=
  bool_decide (x = (KTotal, "total"%string)).

(** A loop that replaces every value [a] of a dictionary by [g a] in
    place, and stops at the first [None]: the shape of both loops of the
    final pass. *)
Definition in_place `{Countable K} {A : Type} (g : A → option A)
    (m0 m : gmap K A) : option (gmap K A) :=
  map_fold (λ k a acc, m' ← acc; a' ← g a; Some (<[k := a']> m'))
           (Some m0) m.

Definition all_defined `{Countable K} {A : Type} (g : A → option A)
    (m : gmap K A) : Prop :=
  map_Forall (λ _ a, is_Some (g a)) m.

Global Instance all_defined_dec `{Countable K} {A : Type}
    (g : A → option A) (m : gmap K A) : Decision (all_defined g m).
Proof. unfold all_defined. apply _. Defined.

(** The entry the final pass writes. *)
Definition average (a : aggregate) : aggregate :=
  Aggregate (count a) (Float (to_Qc (avg_place a) / Qc_of_Z (count a))%Qc).

(** The dictionary the final pass leaves. *)
Definition averages (t : results) : results :=
  (λ b : bucket, average <$> b) <$> t.

(** No entry has count zero. *)
Definition nonzero_counts (t : results) : Prop :=
  ∀ rk k a, get t rk k = Some a → count a ≠ 0.

(** The number of units of the key list named [k]. *)
Definition occ (k : string) (keys : list string) : nat :=
  length (filter (λ y, y = k) keys).

(** The record [p] is accepted, ends at the round [rk] (any round for
    ['total']) and fields the champion [k] (any champion for ['total']). *)
Definition observed (rk : round_key) (k : string) (p : player) : Prop :=
  touches rk p ∧ (k = "total"%string ∨ k ∈ keys_list p).

Global Instance observed_dec rk k p : Decision (observed rk k p).
Proof. unfold observed, touches, accepted. apply _. Defined.

(** Records whose champion names are pairwise different and are not the
    word ['total']. *)
Definition plain_keys (p : player) : Prop :=
  NoDup (keys_list p) ∧ "total"%string ∉ keys_list p.

(** The sum of two values of ['avg_place']. *)
Definition num_plus (x y : number) : number :=
  match x, y with
  | Int a, Int b => Int (a + b)
  | _, _ => Float (to_Qc x + to_Qc y)%Qc
  end.

Definition merge_aggregate (a1 a2 : aggregate) : aggregate :=
  Aggregate (count a1 + count a2) (num_plus (avg_place a1) (avg_place a2)).

Definition merge_bucket (b1 b2 : bucket) : bucket :=
  union_with (λ a1 a2, Some (merge_aggregate a1 a2)) b1 b2.

(** Modelled from the spec: the merge of two partial dictionaries, "pairwise
    {count,sum} addition per key"; the script has no such function, it folds
    one stream from the seeded dictionary.  An entry under a key that only
    one side holds is kept as it is. *)
Definition merge (t1 t2 : results) : results :=
  union_with (λ b1 b2, Some (merge_bucket b1 b2)) t1 t2.

(** The last four stages of the pipeline, on the unwound participants. *)
Definition shape (xs : list participant) : list player :=
  let sized := (λ x, (Z.of_nat (length (p_units x)), x)) <$> xs in
  let fielded := filter (λ nx, 6 ≤ nx.1) sized in
  let fought := filter (λ nx, p_last_round nx.2 ∉ excluded_rounds) fielded in
  (λ nx, Player nx.1 (character_id <$> p_units nx.2)
                (p_last_round nx.2) (p_placement nx.2)) <$> fought.

(** The stored matches without the participants whose last round is
    excluded. *)
Definition without_excluded (ms : list match_doc) : list match_doc :=
  (λ m, MatchDoc (queue_id m)
          (filter (λ x, p_last_round x ∉ excluded_rounds) (participants m)))
    <$> ms.

(** ** Sample records *)

(** The records of the worked example. *)
Definition ashe_jinx : player := Player 2 ["Ashe"; "Jinx"]%string 5 2.

Definition ashe_alone : player := Player 1 ["Ashe"]%string 5 4.

(** A roster with a repeated unit. *)
Definition ashe_ashe_jinx : player :=
  Player 3 ["Ashe"; "Ashe"; "Jinx"]%string 5 2.

(** Two different identifiers with the same trailing name. *)
Definition two_ashes : player :=
  Player 2 ["TFT3_Ashe"; "TFT4_Ashe"]%string 5 2.

(** A ranked match of two players with six units each, one of whom ended
    on the carousel round 15. *)
Definition six_units : list unit_entry :=
  UnitEntry <$> ["TFT3_Ashe"; "TFT3_Jinx"; "TFT3_Lulu"; "TFT3_Ziggs";
                 "TFT3_Yasuo"; "TFT3_Zoe"]%string.

Definition carousel_match : match_doc :=
  MatchDoc 1100 [Participant six_units 15 7; Participant six_units 20 3].

(** ** Vocabulary of the further properties *)

(** The string holds no ['_']. *)
Fixpoint no_underscore (s : string) : bool :=
  match s with
  | EmptyString => true
  | String c rest => negb (Ascii.eqb c underscore) && no_underscore rest
  end.

(** The document the pipeline makes of one participant. *)
Definition shaped (x : participant) : player :=
  Player (Z.of_nat (length (p_units x))) (character_id <$> p_units x)
         (p_last_round x) (p_placement x).

(** The count of an entry, 0 when the entry is missing. *)
Definition count_of (o : option aggregate) : Z := from_option count 0 o.

(** The cumulative placement of an entry while the loop runs, 0 when the
    entry is missing. *)
Definition sum_of (o : option aggregate) : Z :=
  match o with
  | Some (Aggregate _ (Int s)) => s
  | _ => 0
  end.

Definition Zsum (zs : list Z) : Z := foldr Z.add 0 zs.

(** The participant fields at least six units and did not end on a round of
    the [$nin] list. *)
Definition qualifies (x : participant) : Prop :=
  6 ≤ Z.of_nat (length (p_units x)) ∧ p_last_round x ∉ excluded_rounds.

Global Instance qualifies_dec x : Decision (qualifies x).
Proof. unfold qualifies. apply _. Defined.

(** The documents one stored match gives, participant by participant. *)
Definition records_of_match (m : match_doc) : list player :=
  if decide (queue_id m = 1100)
  then shaped <$> filter qualifies (participants m)
  else [].

(** The largest finite float, as an integer. *)
Definition max_float_int : Z := 2 ^ 1024 - 2 ^ 971.

(** The count converts to a float, and the value under ['avg_place'] lies
    in the range of the floats. *)
Definition within_float_range (a : aggregate) : Prop :=
  Z.abs (count a) ≤ max_float_int ∧
  (Qc_of_Z (- max_float_int) ≤ to_Qc (avg_place a)
     ≤ Qc_of_Z max_float_int)%Qc.

(** A dictionary with one entry, of count 2 and cumulative placement 6. *)
Definition six_over_two : results :=
  {[ KTotal := {[ "total"%string := Aggregate 2 (Int 6) ]} ]}.

(** * Theory *)

Ltac decide_cases :=
  repeat case_decide; simplify_eq;
  first [done | lia | exfalso; intuition congruence].

(** ** Reading the dictionary *)

Lemma get_Some_bucket t rk k a :
  get t rk k = Some a → is_Some (t !! rk).
Proof. unfold get. destruct (t !! rk); naive_solver. Qed.

Lemma has_totals_get t rk :
  has_totals t → is_Some (t !! rk) → is_Some (get t rk "total"%string).
Proof.
  intros Ht [b Hb]. unfold get. rewrite Hb. simpl. by eapply Ht.
Qed.

Lemma get_write t rk b k a rk' k' :
  t !! rk = Some b →
  get (<[rk := <[k := a]> b]> t) rk' k' =
    if decide ((rk', k') = (rk, k)) then Some a else get t rk' k'.
Proof.
  intros Hb. unfold get.
  destruct (decide (rk' = rk)) as [->|Hrk].
  - rewrite lookup_insert_eq, Hb. simpl.
    destruct (decide (k' = k)) as [->|Hk].
    + by rewrite lookup_insert_eq, decide_True.
    + rewrite lookup_insert_ne by done. rewrite decide_False; [done|congruence].
  - rewrite lookup_insert_ne by done. rewrite decide_False; [done|congruence].
Qed.

Lemma get_create t rk k a rk' k' :
  t !! rk = None →
  get (<[rk := {[k := a]}]> t) rk' k' =
    if decide ((rk', k') = (rk, k)) then Some a else get t rk' k'.
Proof.
  intros Hb. unfold get.
  destruct (decide (rk' = rk)) as [->|Hrk].
  - rewrite lookup_insert_eq, Hb. simpl.
    destruct (decide (k' = k)) as [->|Hk].
    + by rewrite lookup_singleton_eq, decide_True.
    + rewrite lookup_singleton_ne by done. rewrite decide_False; [done|congruence].
  - rewrite lookup_insert_ne by done. rewrite decide_False; [done|congruence].
Qed.

(** Two dictionaries whose buckets all hold ['total'] are equal as soon as
    they agree on every entry. *)
Lemma results_ext (t1 t2 : results) :
  has_totals t1 → has_totals t2 →
  (∀ rk k, get t1 rk k = get t2 rk k) → t1 = t2.
Proof.
  intros H1 H2 Hget. apply map_eq. intros rk.
  destruct (t1 !! rk) as [b1|] eqn:E1, (t2 !! rk) as [b2|] eqn:E2; try done.
  - f_equal. apply map_eq. intros k.
    specialize (Hget rk k). unfold get in Hget. by rewrite E1, E2 in Hget.
  - destruct (H1 _ _ E1) as [a Ha].
    specialize (Hget rk "total"%string). unfold get in Hget.
    rewrite E1, E2 in Hget. simpl in Hget. congruence.
  - destruct (H2 _ _ E2) as [a Ha].
    specialize (Hget rk "total"%string). unfold get in Hget.
    rewrite E1, E2 in Hget. simpl in Hget. congruence.
Qed.

(** ** One increment *)

Lemma hits_once_write rk k place t b a :
  t !! rk = Some b → hit place (b !! k) = Some a →
  hits_once rk k place t (<[rk := <[k := a]> b]> t).
Proof.
  intros Hb Ha. split.
  - intros rk' k'. rewrite get_write by done.
    unfold get at 2. rewrite Hb. simpl. by rewrite Ha.
  - intros rk'. rewrite lookup_insert_is_Some'. intuition congruence.
Qed.

Lemma hits_once_create rk k place t :
  t !! rk = None →
  hits_once rk k place t (<[rk := {[k := fresh place]}]> t).
Proof.
  intros Hb. split.
  - intros rk' k'. rewrite get_create by done.
    unfold get at 2. by rewrite Hb.
  - intros rk'. rewrite lookup_insert_is_Some'. intuition congruence.
Qed.

Lemma incr_Some rk k place t a :
  get t rk k = Some a →
  ∃ t', incr rk k place t = Some t' ∧ hits_once rk k place t t'.
Proof.
  unfold get, incr. intros Hg.
  destruct (t !! rk) as [b|] eqn:Hb; [|done]. simpl in *. rewrite Hg. simpl.
  eexists. split; [done|]. apply hits_once_write; [done|]. by rewrite Hg.
Qed.

Lemma incr_inv rk k place t t' :
  incr rk k place t = Some t' → hits_once rk k place t t'.
Proof.
  intros H. destruct (get t rk k) as [a|] eqn:Hg.
  - destruct (incr_Some rk k place t a Hg) as (t'' & E & Hh). congruence.
  - unfold incr, get in *. destruct (t !! rk) as [b|]; simpl in *; [|done].
    by rewrite Hg in H.
Qed.

Lemma add_key_Some rk k place t :
  is_Some (t !! rk) →
  ∃ t', add_key rk k place t = Some t' ∧ hits_once rk k place t t'.
Proof.
  intros [b Hb]. unfold add_key. rewrite Hb. simpl.
  destruct (b !! k) as [a|] eqn:Hk; eexists; (split; [done|]);
    apply hits_once_write; try done; by rewrite Hk.
Qed.

Lemma add_key_inv rk k place t t' :
  add_key rk k place t = Some t' → hits_once rk k place t t'.
Proof.
  intros H. destruct (t !! rk) as [b|] eqn:Hb.
  - destruct (add_key_Some rk k place t) as (t'' & E & Hh); [by eexists|].
    congruence.
  - unfold add_key in H. by rewrite Hb in H.
Qed.

Lemma round_total_Some lr place t :
  has_totals t →
  ∃ t', round_total lr place t = Some t' ∧
        hits_once (KRound lr) "total" place t t'.
Proof.
  intros Ht. unfold round_total.
  destruct (t !! KRound lr) as [b|] eqn:Hb.
  - destruct (Ht _ _ Hb) as [a Ha].
    apply (incr_Some _ _ _ _ a). unfold get. by rewrite Hb.
  - eexists. split; [done|]. by apply hits_once_create.
Qed.

Lemma round_total_inv lr place t t' :
  round_total lr place t = Some t' →
  hits_once (KRound lr) "total" place t t'.
Proof.
  unfold round_total. destruct (t !! KRound lr) as [b|] eqn:Hb.
  - apply incr_inv.
  - intros [= <-]. by apply hits_once_create.
Qed.

(** ** Several increments *)

Lemma mult_cons x y tg :
  mult (y :: tg) x = if decide (y = x) then S (mult tg x) else mult tg x.
Proof. unfold mult. rewrite filter_cons. by case_decide. Qed.

Lemma mult_app x tg1 tg2 : mult (tg1 ++ tg2) x = (mult tg1 x + mult tg2 x)%nat.
Proof. unfold mult. by rewrite filter_app, length_app. Qed.

Lemma mult_0 x tg : x ∉ tg → mult tg x = 0%nat.
Proof.
  induction tg as [|y tg IH]; [done|]. rewrite mult_cons, not_elem_of_cons.
  intros [? ?]. rewrite decide_False by done. auto.
Qed.

Lemma mult_pos x tg : x ∈ tg → (0 < mult tg x)%nat.
Proof.
  induction tg as [|y tg IH]; [by intros ?%elem_of_nil|].
  rewrite mult_cons, elem_of_cons. intros [->|?].
  - rewrite decide_True by done. lia.
  - case_decide; [lia|auto].
Qed.

Lemma effect_nil place t : effect [] place t t.
Proof.
  split; [done|]. intros rk. rewrite fmap_nil, elem_of_nil. tauto.
Qed.

Lemma effect_cons rk k tg place t t1 t' :
  hits_once rk k place t t1 → effect tg place t1 t' →
  effect ((rk, k) :: tg) place t t'.
Proof.
  intros [Hg1 Hd1] [Hg Hd]. split.
  - intros rk' k'. rewrite Hg, Hg1, mult_cons.
    destruct (decide ((rk, k) = (rk', k'))) as [E|N].
    + rewrite Nat.iter_succ_r. rewrite decide_True by done. by inversion E.
    + rewrite decide_False by congruence. done.
  - intros rk'. rewrite Hd, Hd1, fmap_cons, elem_of_cons. simpl. tauto.
Qed.

Lemma has_totals_alt t :
  has_totals t ↔ ∀ rk, is_Some (t !! rk) → is_Some (get t rk "total"%string).
Proof.
  split.
  - intros H rk Hrk. by apply has_totals_get.
  - intros H rk b Hb. specialize (H rk (mk_is_Some _ _ Hb)).
    unfold get in H. by rewrite Hb in H.
Qed.

Lemma hits_once_well_formed rk k place t t' :
  well_formed t → hits_once rk k place t t' →
  is_Some (t !! rk) ∨ k = "total"%string →
  well_formed t'.
Proof.
  intros [Htot Ht] [Hg Hd] Hor. split; [apply Hd; by right|].
  apply has_totals_alt. intros rk' Hrk'. rewrite Hg.
  case_decide as E; [done|].
  apply has_totals_get; [done|].
  apply Hd in Hrk' as [->|?]; [|done].
  destruct Hor as [?| ->]; [done|]. by destruct E.
Qed.

Lemma add_keys_Some lr place keys t :
  well_formed t → is_Some (t !! KRound lr) →
  ∃ t', add_keys lr place keys t = Some t' ∧
        effect (key_targets lr keys) place t t' ∧ well_formed t'.
Proof.
  revert t. induction keys as [|key rest IH]; intros t Hwf Hlr.
  - exists t. split; [done|]. split; [apply effect_nil|done].
  - simpl.
    destruct (add_key_Some (KRound lr) key place t Hlr) as (t1 & E1 & H1).
    assert (well_formed t1) as Hwf1.
    { eapply hits_once_well_formed; eauto. }
    assert (is_Some (t1 !! KTotal)) as Htot1 by apply Hwf1.
    destruct (add_key_Some KTotal key place t1 Htot1) as (t2 & E2 & H2).
    assert (well_formed t2) as Hwf2.
    { eapply hits_once_well_formed; eauto. }
    assert (is_Some (t2 !! KRound lr)) as Hlr2.
    { apply H2. right. apply H1. by right. }
    destruct (IH t2 Hwf2 Hlr2) as (t' & E & He & Hwf').
    exists t'. rewrite E1. simpl. rewrite E2. simpl. split; [done|].
    split; [|done].
    change (key_targets lr (key :: rest))
      with ((KRound lr, key) :: (KTotal, key) :: key_targets lr rest).
    eapply effect_cons; [done|]. eapply effect_cons; done.
Qed.

(** On a well-formed dictionary the loop body raises no [KeyError]. *)
Lemma fold_player_accepted t p :
  well_formed t → accepted p →
  ∃ t', fold_player t p = Some t' ∧
        effect (targets p) (placement p) t t' ∧ well_formed t'.
Proof.
  intros Hwf Hacc. unfold fold_player. rewrite decide_False by done.
  destruct (has_totals_get t KTotal) as [a Ha]; [apply Hwf..|].
  destruct (incr_Some KTotal "total" (placement p) t a Ha) as (t1 & E1 & H1).
  assert (well_formed t1) as Hwf1.
  { eapply hits_once_well_formed; eauto. }
  destruct (round_total_Some (last_round p) (placement p) t1) as (t2 & E2 & H2);
    [apply Hwf1|].
  assert (well_formed t2) as Hwf2.
  { eapply hits_once_well_formed; eauto. }
  assert (is_Some (t2 !! KRound (last_round p))) as Hlr2.
  { apply H2. by left. }
  destruct (add_keys_Some (last_round p) (placement p) (keys_list p) t2 Hwf2 Hlr2)
    as (t' & E & He & Hwf').
  exists t'. simpl. rewrite E1. simpl. rewrite E2. simpl. split; [done|].
  split; [|done].
  unfold targets. eapply effect_cons; [done|]. eapply effect_cons; done.
Qed.

Lemma fold_player_rejected t p :
  has_duplicate_units p → fold_player t p = Some t.
Proof. intros H. unfold fold_player. by rewrite decide_True. Qed.

(** ** The whole loop *)

Lemma targets_rounds p rk :
  rk ∈ (targets p).*1 ↔ rk = KTotal ∨ rk = KRound (last_round p).
Proof.
  unfold targets. rewrite !fmap_cons, !elem_of_cons. simpl.
  split; [|tauto]. intros [?|[?|H]]; [tauto..|].
  apply list_elem_of_fmap in H as ([rk' k] & -> & H).
  unfold key_targets in H. apply list_elem_of_bind in H as (k' & H & _).
  apply elem_of_cons in H as [H|H]; [inversion H; tauto|].
  apply elem_of_cons in H as [H|H]; [inversion H; tauto|].
  by apply elem_of_nil in H.
Qed.

(** From a well-formed dictionary the loop raises no [KeyError], and its
    result is read off entry by entry. *)
Lemma reduce_Some l : ∀ t,
  well_formed t →
  ∃ t', reduce t l = Some t' ∧ well_formed t' ∧
        (∀ rk k, get t' rk k = apply_all l (rk, k) (get t rk k)) ∧
        (∀ rk, is_Some (t' !! rk) ↔
               is_Some (t !! rk) ∨ ∃ p, p ∈ l ∧ touches rk p).
Proof.
  induction l as [|p l IH]; intros t Hwf.
  - exists t. repeat split; try done; try apply Hwf.
    + by left.
    + intros [?|(p & []%elem_of_nil & _)]. done.
  - simpl. destruct (decide (has_duplicate_units p)) as [Hdup|Hacc].
    + rewrite fold_player_rejected by done. simpl.
      destruct (IH t Hwf) as (t' & E & Hwf' & Hg & Hd).
      exists t'. repeat split; try done; try apply Hwf'.
      * intros rk k. rewrite Hg. unfold apply_player.
        by rewrite decide_True.
      * intros H. apply Hd in H as [?|(q & Hq & Ht)]; [by left|].
        right. exists q. split; [by right|done].
      * intros [?|(q & Hq & Ht)]; apply Hd; [by left|].
        apply elem_of_cons in Hq as [->|Hq]; [by destruct Ht|].
        right. by exists q.
    + destruct (fold_player_accepted t p Hwf Hacc) as (t1 & E1 & [Hg1 Hd1] & Hwf1).
      rewrite E1. simpl.
      destruct (IH t1 Hwf1) as (t' & E & Hwf' & Hg & Hd).
      exists t'. repeat split; try done; try apply Hwf'.
      * intros rk k. rewrite Hg, Hg1. unfold apply_player.
        by rewrite decide_False.
      * intros H. apply Hd in H as [H|(q & Hq & Ht)].
        -- apply Hd1 in H as [?|H]; [by left|]. right. exists p.
           split; [by left|]. split; [done|]. by apply targets_rounds.
        -- right. exists q. split; [by right|done].
      * intros [?|(q & Hq & Ht)]; apply Hd.
        -- left. apply Hd1. by left.
        -- apply elem_of_cons in Hq as [->|Hq].
           ++ left. apply Hd1. right. apply targets_rounds, Ht.
           ++ right. by exists q.
Qed.

Lemma init_well_formed : well_formed init.
Proof.
  split.
  - unfold init. rewrite lookup_singleton_eq. by eexists.
  - intros rk b. unfold init. intros [<- <-]%lookup_singleton_Some.
    rewrite lookup_singleton_eq. by eexists.
Qed.

(** ** Counting increments *)

Lemma hit_entry place seed n s :
  (n = 0%nat → s = 0) →
  hit place (entry seed n s) = entry seed (S n) (s + place).
Proof.
  intros Hs. unfold hit, entry, bump, fresh.
  destruct seed, n; cbn [from_option count avg_place num_add];
    try rewrite (Hs eq_refl); apply (f_equal Some); f_equal;
    try lia; f_equal; lia.
Qed.

Lemma iter_hit_entry m place seed n s :
  (n = 0%nat → s = 0) →
  Nat.iter m (hit place) (entry seed n s) =
    entry seed (n + m) (s + Z.of_nat m * place).
Proof.
  intros Hs. induction m as [|m IH].
  - simpl. rewrite Nat.add_0_r, Z.add_0_r. done.
  - rewrite Nat.iter_succ, IH, hit_entry.
    + f_equal; lia.
    + intros E. assert (m = 0%nat) as -> by lia. lia.
Qed.

Lemma apply_all_cons p l x o :
  apply_all (p :: l) x o = apply_all l x (apply_player p x o).
Proof. done. Qed.

Lemma incs_cons p l x :
  incs (p :: l) x =
    ((if decide (has_duplicate_units p) then 0 else mult (targets p) x)
     + incs l x)%nat.
Proof. done. Qed.

Lemma psum_cons p l x :
  psum (p :: l) x =
    (if decide (has_duplicate_units p) then 0
     else Z.of_nat (mult (targets p) x) * placement p) + psum l x.
Proof. done. Qed.

Lemma apply_all_entry l x : ∀ seed n s,
  (n = 0%nat → s = 0) →
  apply_all l x (entry seed n s) =
    entry seed (n + incs l x) (s + psum l x).
Proof.
  induction l as [|p l IH]; intros seed n s Hs.
  - unfold incs, psum. simpl. by rewrite Nat.add_0_r, Z.add_0_r.
  - rewrite apply_all_cons, incs_cons, psum_cons. unfold apply_player.
    destruct (decide (has_duplicate_units p)).
    + rewrite IH by done. f_equal; lia.
    + rewrite iter_hit_entry by done. rewrite IH; [f_equal; lia|].
      intros E. assert (mult (targets p) x = 0%nat) as -> by lia. lia.
Qed.

Lemma get_init rk k : get init rk k = entry (seeded (rk, k)) 0 0.
Proof.
  unfold get, init, seeded.
  destruct (decide (rk = KTotal)) as [->|Hrk].
  - rewrite lookup_singleton_eq. simpl.
    destruct (decide (k = "total"%string)) as [->|Hk].
    + by rewrite lookup_singleton_eq.
    + rewrite lookup_singleton_ne by done.
      rewrite bool_decide_eq_false_2; [done|congruence].
  - rewrite lookup_singleton_ne by done.
    rewrite bool_decide_eq_false_2; [done|congruence].
Qed.

(** The loop on the seeded dictionary always ends well, and every entry
    holds its number of increments and the placements added to it. *)
Lemma reduce_init l :
  ∃ t, reduce init l = Some t ∧ well_formed t ∧
       ∀ rk k, get t rk k =
         entry (seeded (rk, k)) (incs l (rk, k)) (psum l (rk, k)).
Proof.
  destruct (reduce_Some l init init_well_formed) as (t & E & Hwf & Hg & _).
  exists t. split; [done|]. split; [done|].
  intros rk k. by rewrite Hg, get_init, apply_all_entry.
Qed.

(** ** The final pass, entry by entry *)

Section in_place.
Context `{Countable K} {A : Type} (g : A → option A).

Lemma all_defined_insert (m : gmap K A) (i : K) (x : A) :
  m !! i = None →
  all_defined g (<[i := x]> m) ↔ is_Some (g x) ∧ all_defined g m.
Proof.
  intros Hi. unfold all_defined.
  exact (map_Forall_insert (λ _ a, is_Some (g a)) m i x Hi).
Qed.

Lemma in_place_from (m0 m : gmap K A) :
  in_place g m0 m =
    if decide (all_defined g m) then Some (omap g m ∪ m0) else None.
Proof.
  unfold in_place.
  pose (P := λ (r : option (gmap K A)) (m1 : gmap K A),
    r = if decide (all_defined g m1) then Some (omap g m1 ∪ m0) else None).
  apply (map_fold_weak_ind P); unfold P; clear P.
  - rewrite decide_True by apply map_Forall_empty.
    by rewrite omap_empty, (left_id_L ∅ (∪)).
  - intros i x m' r Hi ->.
    destruct (g x) as [y|] eqn:Hx.
    + destruct (decide (all_defined g m')) as [Hall|Hall].
      * rewrite decide_True.
        2:{ apply all_defined_insert; [done|]. split; [by rewrite Hx|done]. }
        simpl. f_equal.
        rewrite (omap_insert_Some g m' i x y Hx).
        by rewrite insert_union_l.
      * rewrite decide_False; [done|].
        intros [_ ?]%all_defined_insert; done.
    + rewrite (decide_False (P := all_defined g (<[i:=x]> m'))).
      2:{ intros [[? ?] _]%all_defined_insert; [congruence|done]. }
      by case_decide.
Qed.

Lemma in_place_self (m : gmap K A) :
  in_place g m m = if decide (all_defined g m) then Some (omap g m) else None.
Proof.
  rewrite in_place_from. case_decide as Hall; [|done]. f_equal.
  apply map_eq. intros i. rewrite lookup_union, lookup_omap.
  destruct (m !! i) as [x|] eqn:Hi; simpl; [|done].
  destruct (Hall i x Hi) as [y Hy]. by rewrite Hy.
Qed.
End in_place.

Lemma finalize_bucket_unfold b :
  finalize_bucket b = in_place finalize_aggregate b b.
Proof. done. Qed.

Lemma finalize_unfold t : finalize t = in_place finalize_bucket t t.
Proof. done. Qed.

Lemma finalize_aggregate_eq a :
  finalize_aggregate a = if decide (count a = 0) then None else Some (average a).
Proof.
  unfold finalize_aggregate, truediv. by case_decide.
Qed.

Lemma finalize_bucket_Some b b' :
  finalize_bucket b = Some b' ↔
    (∀ k a, b !! k = Some a → count a ≠ 0) ∧ b' = average <$> b.
Proof.
  rewrite finalize_bucket_unfold, in_place_self.
  assert (all_defined finalize_aggregate b ↔
          ∀ k a, b !! k = Some a → count a ≠ 0) as Hall.
  { unfold all_defined, map_Forall.
    split; intros Hb k a Hk; specialize (Hb k a Hk);
      rewrite finalize_aggregate_eq in *; case_decide; done. }
  assert ((∀ k a, b !! k = Some a → count a ≠ 0) →
          omap finalize_aggregate b = average <$> b) as Hmap.
  { intros Hb. apply map_eq. intros k. rewrite lookup_omap, lookup_fmap.
    destruct (b !! k) as [a|] eqn:Hk; simpl; [|done].
    rewrite finalize_aggregate_eq, decide_False; [done|by eapply Hb]. }
  case_decide as Hd.
  - pose proof (proj1 Hall Hd) as Hd'. rewrite (Hmap Hd').
    split; [by intros [= <-]|by intros [_ ->]].
  - split; [done|]. intros [Hb _]. destruct Hd. by apply Hall.
Qed.

(** The final pass ends well exactly when no count is zero, and then it has
    replaced every entry by its average. *)
Lemma finalize_Some t t' :
  finalize t = Some t' ↔ nonzero_counts t ∧ t' = averages t.
Proof.
  rewrite finalize_unfold, in_place_self.
  assert (all_defined finalize_bucket t ↔ nonzero_counts t) as Hall.
  { unfold all_defined, map_Forall, nonzero_counts, get. split.
    - intros Ht rk k a Hg.
      destruct (t !! rk) as [b|] eqn:Hb; simpl in Hg; [|done].
      destruct (Ht rk b Hb) as [b' Hb'].
      apply finalize_bucket_Some in Hb' as [Hnz _]. by eapply Hnz.
    - intros Ht rk b Hb. exists (average <$> b).
      apply finalize_bucket_Some. split; [|done].
      intros k a Hk. apply (Ht rk k). by rewrite Hb. }
  assert (nonzero_counts t → omap finalize_bucket t = averages t) as Hmap.
  { intros Ht. apply map_eq. intros rk. unfold averages.
    rewrite lookup_omap, lookup_fmap.
    destruct (t !! rk) as [b|] eqn:Hb; simpl; [|done].
    apply finalize_bucket_Some. split; [|done].
    intros k a Hk. apply (Ht rk k). unfold get. by rewrite Hb. }
  case_decide as Hd.
  - pose proof (proj1 Hall Hd) as Hd'. rewrite (Hmap Hd').
    split; [by intros [= <-]|by intros [_ ->]].
  - split; [done|]. intros [Hb _]. destruct Hd. by apply Hall.
Qed.

Lemma get_averages t rk k :
  get (averages t) rk k = average <$> get t rk k.
Proof.
  unfold get, averages. rewrite lookup_fmap.
  destruct (t !! rk) as [b|]; simpl; [|done]. by rewrite lookup_fmap.
Qed.

Lemma averages_is_Some t rk :
  is_Some (averages t !! rk) ↔ is_Some (t !! rk).
Proof. unfold averages. rewrite lookup_fmap. apply fmap_is_Some. Qed.

(** ** Counts when the final pass starts *)

Lemma incs_accepted_pos l x :
  (∃ p, p ∈ l ∧ accepted p ∧ x ∈ targets p) → (0 < incs l x)%nat.
Proof.
  intros (p & Hp & Hacc & Hx).
  induction l as [|q l IH]; [by apply elem_of_nil in Hp|].
  rewrite incs_cons. apply elem_of_cons in Hp as [<-|Hp].
  - rewrite decide_False by done. pose proof (mult_pos x (targets p) Hx). lia.
  - specialize (IH Hp). lia.
Qed.

Lemma incs_total_total l :
  (length (filter accepted l) ≤ incs l (KTotal, "total"%string))%nat.
Proof.
  induction l as [|p l IH]; [done|].
  rewrite incs_cons.
  destruct (decide (has_duplicate_units p)) as [Hdup|Hacc].
  - rewrite filter_cons_False; [done|]. intros Hacc. by apply Hacc.
  - rewrite filter_cons_True by done. simpl.
    assert (0 < mult (targets p) (KTotal, "total"%string))%nat.
    { apply mult_pos. unfold targets. apply list_elem_of_here. }
    lia.
Qed.

Lemma entry_Some seed n s a :
  entry seed n s = Some a → count a = Z.of_nat n ∧ avg_place a = Int s.
Proof.
  unfold entry. destruct seed, n; intros; by simplify_eq.
Qed.

Lemma entry_not_seeded n s a :
  entry false n s = Some a → (0 < n)%nat.
Proof. unfold entry. destruct n; [done|lia]. Qed.

Lemma reduce_counts (l : list player) (t : results) :
  reduce init l = Some t →
  (∀ rk k a, get t rk k = Some a →
     (rk, k) ≠ (KTotal, "total"%string) → 1 ≤ count a) ∧
  (∀ a, get t KTotal "total" = Some a →
     Z.of_nat (length (filter accepted l)) ≤ count a) ∧
  ((∃ p, p ∈ l ∧ accepted p) →
     (∀ rk k a, get t rk k = Some a → 1 ≤ count a) ∧
     is_Some (finalize t)).
Proof.
  intros E. destruct (reduce_init l) as (t0 & E0 & Hwf & Hg).
  rewrite E in E0. simplify_eq.
  assert (∀ rk k a, get t0 rk k = Some a →
            (rk, k) ≠ (KTotal, "total"%string) → 1 ≤ count a) as Hother.
  { intros rk k a Ha Hne. rewrite Hg in Ha. unfold seeded in Ha.
    rewrite bool_decide_eq_false_2 in Ha by done.
    apply entry_not_seeded in Ha as Hpos.
    apply entry_Some in Ha as [-> _]. lia. }
  assert (∀ a, get t0 KTotal "total" = Some a →
            Z.of_nat (length (filter accepted l)) ≤ count a) as Hseed.
  { intros a Ha. rewrite Hg in Ha. apply entry_Some in Ha as [-> _].
    pose proof (incs_total_total l). lia. }
  split; [done|]. split; [done|].
  intros (p & Hp & Hacc).
  assert (∀ rk k a, get t0 rk k = Some a → 1 ≤ count a) as Hall.
  { intros rk k a Ha.
    destruct (decide ((rk, k) = (KTotal, "total"%string))) as [Heq|Hne];
      [|by eapply Hother].
    inversion Heq; subst. specialize (Hseed a Ha).
    assert (0 < length (filter accepted l))%nat; [|lia].
    assert (p ∈ filter accepted l) as Hin by by apply list_elem_of_filter.
    destruct (filter accepted l); [by apply elem_of_nil in Hin|simpl; lia]. }
  split; [done|].
  exists (averages t0). apply finalize_Some. split; [|done].
  intros rk k a Ha. specialize (Hall rk k a Ha). lia.
Qed.

(** With one accepted record in the stream the loop and the final pass both
    end well. *)
Lemma analysis_is_Some l :
  (∃ p, p ∈ l ∧ accepted p) → is_Some (analysis l).
Proof.
  intros Hacc. destruct (reduce_init l) as (t & E & _).
  unfold analysis. rewrite E. simpl. by apply (reduce_counts l t E).
Qed.

(** ** Sums of placements *)

Lemma psum_bounds (lo hi : Z) l x :
  (∀ p, p ∈ l → lo ≤ placement p ≤ hi) →
  lo * Z.of_nat (incs l x) ≤ psum l x ≤ hi * Z.of_nat (incs l x).
Proof.
  induction l as [|p l IH]; intros Hl.
  - unfold incs, psum. simpl. lia.
  - rewrite incs_cons, psum_cons.
    assert (lo ≤ placement p ≤ hi) as Hp by apply Hl, list_elem_of_here.
    assert (lo * Z.of_nat (incs l x) ≤ psum l x ≤ hi * Z.of_nat (incs l x))
      as IH' by (apply IH; intros q Hq; apply Hl; by right).
    destruct (decide (has_duplicate_units p)); [lia|]. nia.
Qed.

Lemma psum_0 l x : incs l x = 0%nat → psum l x = 0.
Proof.
  induction l as [|p l IH]; [done|].
  rewrite incs_cons, psum_cons. intros H.
  rewrite IH by lia. destruct (decide (has_duplicate_units p)); [done|].
  assert (mult (targets p) x = 0%nat) as -> by lia. lia.
Qed.

Lemma incs_app l1 l2 x : incs (l1 ++ l2) x = (incs l1 x + incs l2 x)%nat.
Proof.
  induction l1 as [|p l1 IH]; [done|].
  rewrite <-app_comm_cons, !incs_cons, IH. lia.
Qed.

Lemma psum_app l1 l2 x : psum (l1 ++ l2) x = psum l1 x + psum l2 x.
Proof.
  induction l1 as [|p l1 IH]; [simpl; unfold psum at 2; simpl; lia|].
  rewrite <-app_comm_cons, !psum_cons, IH. lia.
Qed.

(** The quotient of a sum that lies between [lo * n] and [hi * n] by [n]. *)
Lemma quotient_bounds (lo hi s n : Z) :
  0 < n → lo * n ≤ s ≤ hi * n →
  (Qc_of_Z lo ≤ Qc_of_Z s / Qc_of_Z n ≤ Qc_of_Z hi)%Qc.
Proof.
  intros Hn [Hlo Hhi].
  assert (0 < inject_Z n)%Q as Hn'.
  { change 0%Q with (inject_Z 0). by rewrite <-Zlt_Qlt. }
  unfold Qcle, Qcdiv, Qcmult, Qcinv, Q2Qc. cbn [this Qc_of_Z].
  rewrite !Qred_correct. split.
  - apply Qle_shift_div_l; [done|].
    rewrite <-inject_Z_mult, <-Zle_Qle. done.
  - apply Qle_shift_div_r; [done|].
    rewrite <-inject_Z_mult, <-Zle_Qle. done.
Qed.

(** * The properties *)

Lemma Float_eq (q1 q2 : Qc) : (this q1 == this q2)%Q → Float q1 = Float q2.
Proof. intros H. f_equal. by apply Qc_is_canon. Qed.

Lemma Aggregate_Float_eq c (q1 q2 : Qc) :
  (this q1 == this q2)%Q →
  Some (Aggregate c (Float q1)) = Some (Aggregate c (Float q2)).
Proof. intros H. do 2 f_equal. by apply Float_eq. Qed.

Lemma reduce_app l1 l2 t :
  reduce t (l1 ++ l2) = reduce t l1 ≫= λ t', reduce t' l2.
Proof.
  revert t. induction l1 as [|p l1 IH]; intros t; [done|].
  simpl. destruct (fold_player t p) as [t1|]; simpl; [apply IH|done].
Qed.

(** ** The worked example *)

Lemma ashe_jinx_accepted : accepted ashe_jinx.
Proof. intros H. by apply H. Qed.

Lemma ashe_alone_accepted : accepted ashe_alone.
Proof. intros H. by apply H. Qed.

(** C1: on the two records [{last_round: 5, placement: 2, units: [Ashe, Jinx]}]
    and [{last_round: 5, placement: 4, units: [Ashe]}] the loop and the final
    pass end well, and the dictionary holds [{count: 2, avg_place: 3.0}] under
    [5][Ashe], [{count: 1, avg_place: 2.0}] under [5][Jinx], and
    [{count: 2, avg_place: 3.0}] under [5][total], [total][Ashe] and
    [total][total]. *)
Theorem worked_example :
  ∃ t, analysis [ashe_jinx; ashe_alone] = Some t ∧
    get t (KRound 5) "Ashe" = Some (Aggregate 2 (Float (Qc_of_Z 3))) ∧
    get t (KRound 5) "Jinx" = Some (Aggregate 1 (Float (Qc_of_Z 2))) ∧
    get t (KRound 5) "total" = Some (Aggregate 2 (Float (Qc_of_Z 3))) ∧
    get t KTotal "Ashe" = Some (Aggregate 2 (Float (Qc_of_Z 3))) ∧
    get t KTotal "total" = Some (Aggregate 2 (Float (Qc_of_Z 3))).
Proof.
  destruct (analysis_is_Some [ashe_jinx; ashe_alone]) as [t E].
  { exists ashe_jinx. split; [apply list_elem_of_here|apply ashe_jinx_accepted]. }
  exists t. split; [done|].
  assert (∀ rk k, get t rk k =
            analysis [ashe_jinx; ashe_alone] ≫= λ t, get t rk k) as Hg.
  { intros rk k. by rewrite E. }
  rewrite !Hg. clear.
  repeat split; vm_compute; by apply Aggregate_Float_eq.
Qed.

(** ** The duplicate guard *)

Lemma distinct_le (l : list string) :
  (size (list_to_set l : gset string) ≤ length l)%nat.
Proof.
  induction l as [|x l IH]; [done|].
  rewrite list_to_set_cons, size_union_alt, size_singleton. simpl.
  assert (list_to_set l ∖ {[x]} ⊆ (list_to_set l : gset string)) as Hsub.
  { intros y Hy. by apply elem_of_difference in Hy as [? _]. }
  apply subseteq_size in Hsub. lia.
Qed.

Lemma distinct_NoDup (l : list string) :
  size (list_to_set l : gset string) = length l ↔ NoDup l.
Proof.
  split; [|apply size_list_to_set].
  induction l as [|x l IH]; [constructor|].
  rewrite list_to_set_cons. simpl. intros Hsz.
  destruct (decide (x ∈ l)) as [Hin|Hnin].
  - assert ({[x]} ∪ list_to_set l = (list_to_set l : gset string)) as E.
    { apply subseteq_union_1_L. intros y ->%elem_of_singleton.
      by apply elem_of_list_to_set. }
    rewrite E in Hsz. pose proof (distinct_le l). lia.
  - rewrite size_union, size_singleton in Hsz.
    + constructor; [done|]. apply IH. lia.
    + intros y ->%elem_of_singleton Hy%elem_of_list_to_set. done.
Qed.

(** When [num_units] is the length of [units], as the pipeline's [$size]
    makes it, the guard rejects exactly the lists with a repeated
    identifier. *)
Lemma has_duplicate_units_NoDup p :
  num_units p = Z.of_nat (length (units p)) →
  has_duplicate_units p ↔ ¬ NoDup (units p).
Proof.
  intros Hn. unfold has_duplicate_units. rewrite Hn, <-distinct_NoDup. lia.
Qed.

(** C5: a record whose number of distinct unit identifiers differs from
    [num_units] leaves the whole dictionary as it was, rollups included, and
    a stream gives the same dictionary with and without that record. *)
Theorem duplicate_units_discarded (t : results) (p : player) :
  has_duplicate_units p →
  fold_player t p = Some t ∧
  ∀ l1 l2, reduce t (l1 ++ p :: l2) = reduce t (l1 ++ l2).
Proof.
  intros Hdup.
  assert (∀ t0, fold_player t0 p = Some t0) as Hskip.
  { intros t0. unfold fold_player. by rewrite decide_True. }
  split; [apply Hskip|].
  intros l1 l2. rewrite !reduce_app.
  destruct (reduce t l1) as [t1|]; simpl; [|done].
  by rewrite Hskip.
Qed.

Lemma duplicate_units_discarded_witness :
  has_duplicate_units ashe_ashe_jinx ∧
  fold_player init ashe_ashe_jinx = Some init.
Proof.
  assert (has_duplicate_units ashe_ashe_jinx) as H by (vm_compute; discriminate).
  split; [exact H|].
  exact (proj1 (duplicate_units_discarded init ashe_ashe_jinx H)).
Defined.

(** ** The invariant of the dictionary *)

Lemma fold_player_well_formed t p t' :
  has_totals t → fold_player t p = Some t' →
  has_totals t' ∧ (accepted p → well_formed t ∧ well_formed t').
Proof.
  intros Ht E. destruct (decide (has_duplicate_units p)) as [Hdup|Hacc].
  - rewrite fold_player_rejected in E by done. by simplify_eq.
  - assert (is_Some (t !! KTotal)) as Htot.
    { unfold fold_player in E. rewrite decide_False in E by done.
      unfold incr in E. destruct (t !! KTotal); [by eexists|done]. }
    destruct (fold_player_accepted t p) as (t'' & E' & _ & Hwf); [done..|].
    rewrite E in E'. simplify_eq. split; [apply Hwf|done].
Qed.

(** C10: the seeded dictionary holds ['total'] in each of its buckets, one
    pass of the loop body keeps it so, and so does the whole loop, which
    raises no [KeyError] on the way. *)
Theorem every_bucket_has_total :
  has_totals init ∧
  (∀ t p t', has_totals t → fold_player t p = Some t' → has_totals t') ∧
  (∀ l, ∃ t, reduce init l = Some t ∧ has_totals t).
Proof.
  split; [apply init_well_formed|]. split.
  - intros t p t' Ht E. by destruct (fold_player_well_formed t p t' Ht E).
  - intros l. destruct (reduce_init l) as (t & E & Hwf & _).
    exists t. split; [done|apply Hwf].
Qed.

(** ** The seeded entry and the division *)

(** C4, the stream with no record: the seeded entry still has count 0 when
    the final pass starts, and the pass stops on the division by zero. *)
Lemma empty_stream_divides_by_zero :
  reduce init [] = Some init ∧
  get init KTotal "total" = Some (Aggregate 0 (Int 0)) ∧
  finalize init = None.
Proof.
  split; [done|]. split; [done|].
  apply eq_None_not_Some. intros [t [Hnz _]%finalize_Some].
  by apply (Hnz KTotal "total"%string (Aggregate 0 (Int 0))).
Qed.

(** C4, amended: after the loop every entry other than the seeded
    [results['total']['total']] has count at least 1; the seeded entry counts
    at least the accepted records; so as soon as one record of the stream is
    accepted every count is at least 1 and the final pass divides by no zero. *)
Theorem counts_positive (l : list player) (t : results) :
  reduce init l = Some t →
  (∀ rk k a, get t rk k = Some a →
     (rk, k) ≠ (KTotal, "total"%string) → 1 ≤ count a) ∧
  (∀ a, get t KTotal "total" = Some a →
     Z.of_nat (length (filter accepted l)) ≤ count a) ∧
  ((∃ p, p ∈ l ∧ accepted p) →
     (∀ rk k a, get t rk k = Some a → 1 ≤ count a) ∧
     is_Some (finalize t)).
Proof. apply reduce_counts. Qed.

Lemma counts_positive_witness :
  ∃ t, reduce init [ashe_alone] = Some t ∧
       (∀ rk k a, get t rk k = Some a → 1 ≤ count a) ∧ is_Some (finalize t).
Proof.
  destruct (reduce_init [ashe_alone]) as (t & E & _).
  exists t. split; [done|].
  apply (counts_positive [ashe_alone] t E).
  exists ashe_alone. split; [apply list_elem_of_here|apply ashe_alone_accepted].
Defined.

(** ** Running the final pass twice *)

Lemma analysis_Some l t :
  analysis l = Some t ↔
  ∃ t0, reduce init l = Some t0 ∧ nonzero_counts t0 ∧ t = averages t0.
Proof.
  unfold analysis. split.
  - intros E. destruct (reduce init l) as [t0|]; simpl in E; [|done].
    exists t0. split; [done|]. by apply finalize_Some.
  - intros (t0 & -> & H). simpl. by apply finalize_Some.
Qed.

Lemma second_pass_Some (l : list player) (t1 : results) :
  analysis l = Some t1 →
  ∃ t2, finalize t1 = Some t2 ∧
    ∀ rk k a, get t1 rk k = Some a →
      ∃ q, avg_place a = Float q ∧
           get t2 rk k =
             Some (Aggregate (count a) (Float (q / Qc_of_Z (count a))%Qc)).
Proof.
  intros (t0 & E0 & Hnz & ->)%analysis_Some.
  exists (averages (averages t0)). split.
  - apply finalize_Some. split; [|done].
    intros rk k a. rewrite get_averages.
    destruct (get t0 rk k) as [a0|] eqn:Ha0; [|done].
    intros [= <-]. unfold average. cbn [count]. by eapply Hnz.
  - intros rk k a. rewrite !get_averages.
    destruct (get t0 rk k) as [a0|] eqn:Ha0; [|done].
    intros [= <-]. eexists. split; done.
Qed.

(** C7, one record of placement 4: both passes leave 4.0 under [5][Ashe],
    whose count is 1, and 4.0 is not half of 4.0. *)
Lemma second_pass_not_half :
  ∃ t1 t2, analysis [ashe_alone] = Some t1 ∧ finalize t1 = Some t2 ∧
    get t1 (KRound 5) "Ashe" = Some (Aggregate 1 (Float (Qc_of_Z 4))) ∧
    get t2 (KRound 5) "Ashe" = Some (Aggregate 1 (Float (Qc_of_Z 4))) ∧
    Qc_of_Z 4 ≠ (Qc_of_Z 4 / Qc_of_Z 2)%Qc.
Proof.
  destruct (analysis_is_Some [ashe_alone]) as [t1 E1].
  { exists ashe_alone. split; [apply list_elem_of_here|apply ashe_alone_accepted]. }
  destruct (second_pass_Some [ashe_alone] t1 E1) as (t2 & E2 & _).
  exists t1, t2. split; [done|]. split; [done|].
  assert (∀ rk k, get t1 rk k = analysis [ashe_alone] ≫= λ t, get t rk k) as Hg1.
  { intros rk k. by rewrite E1. }
  assert (∀ rk k, get t2 rk k =
            (analysis [ashe_alone] ≫= finalize) ≫= λ t, get t rk k) as Hg2.
  { intros rk k. rewrite E1. simpl. by rewrite E2. }
  rewrite Hg1, Hg2. clear.
  split; [vm_compute; by apply Aggregate_Float_eq|].
  split; [vm_compute; by apply Aggregate_Float_eq|].
  intros H. apply (f_equal this) in H. by vm_compute in H.
Qed.

Lemma Qcinv_inj (x y : Qc) : (/ x = / y)%Qc → x = y.
Proof.
  assert (∀ z : Qc, (/ / z = z)%Qc) as Hinv.
  { intros z. apply Qc_is_canon. unfold Qcinv, Q2Qc. cbn [this].
    rewrite !Qred_correct. apply Qinv_involutive. }
  intros H. rewrite <-(Hinv x), <-(Hinv y). by rewrite H.
Qed.

Lemma Qc_of_Z_inj (x y : Z) : Qc_of_Z x = Qc_of_Z y → x = y.
Proof. intros H. apply (f_equal this) in H. by injection H. Qed.

(** Dividing by [c] halves [q] exactly when [c] is 2 or [q] is 0. *)
Lemma divided_is_halved (q : Qc) (c : Z) :
  (q / Qc_of_Z c = q / Qc_of_Z 2)%Qc ↔ c = 2 ∨ q = Q2Qc 0.
Proof.
  split.
  - intros H. destruct (decide (q = Q2Qc 0)) as [?|Hq]; [by right|left].
    apply Qc_of_Z_inj, Qcinv_inj.
    unfold Qcdiv in H. apply (f_equal (Qcmult (/ q))) in H.
    by rewrite !Qcmult_assoc, !Qcmult_inv_l, !Qcmult_1_l in H.
  - intros [->| ->]; [done|]. unfold Qcdiv. by rewrite !Qcmult_0_l.
Qed.

(** C7, amended: a second run of the final pass on the dictionary of
    averages ends well and divides every average by the count of its entry
    once more, leaving the counts as they are; the average it leaves is half
    the former one exactly for the entries whose count is 2 or whose average
    is 0. *)
Theorem second_pass_divides_by_count (l : list player) (t1 : results) :
  analysis l = Some t1 →
  ∃ t2, finalize t1 = Some t2 ∧
    ∀ rk k a, get t1 rk k = Some a →
      ∃ q, avg_place a = Float q ∧
           get t2 rk k =
             Some (Aggregate (count a) (Float (q / Qc_of_Z (count a))%Qc)) ∧
           ((q / Qc_of_Z (count a) = q / Qc_of_Z 2)%Qc ↔
            count a = 2 ∨ q = Q2Qc 0).
Proof.
  intros E. destruct (second_pass_Some l t1 E) as (t2 & E2 & H).
  exists t2. split; [exact E2|].
  intros rk k a Ha. destruct (H rk k a Ha) as (q & Hq & Hg).
  exists q. split; [exact Hq|]. split; [exact Hg|]. apply divided_is_halved.
Qed.

Lemma second_pass_divides_by_count_witness :
  ∃ t1 t2, analysis [ashe_jinx; ashe_alone] = Some t1 ∧
    finalize t1 = Some t2 ∧
    ∀ rk k a, get t1 rk k = Some a →
      ∃ q, avg_place a = Float q ∧
           get t2 rk k =
             Some (Aggregate (count a) (Float (q / Qc_of_Z (count a))%Qc)) ∧
           ((q / Qc_of_Z (count a) = q / Qc_of_Z 2)%Qc ↔
            count a = 2 ∨ q = Q2Qc 0).
Proof.
  destruct (analysis_is_Some [ashe_jinx; ashe_alone]) as [t1 E].
  { exists ashe_jinx. split; [apply list_elem_of_here|apply ashe_jinx_accepted]. }
  destruct (second_pass_divides_by_count [ashe_jinx; ashe_alone] t1 E)
    as (t2 & E2 & H).
  exists t1, t2. split; [exact E|]. split; [exact E2|exact H].
Defined.

(** ** The map stage *)

Lemma pipeline_elem p ms :
  p ∈ pipeline ms →
  (last_round p ∉ excluded_rounds) ∧
  (num_units p = Z.of_nat (length (units p))) ∧
  (6 ≤ num_units p).
Proof.
  unfold pipeline. intros H.
  apply list_elem_of_fmap in H as ([n x] & -> & H).
  apply list_elem_of_filter in H as [Hround H].
  apply list_elem_of_filter in H as [Hsize H].
  apply list_elem_of_fmap in H as (y & [= -> ->] & _).
  simpl in *. by rewrite length_fmap.
Qed.

(** The round keys of the dictionary after the loop are the last rounds of
    the accepted records. *)
Lemma round_keys l t r :
  reduce init l = Some t →
  is_Some (t !! KRound r) ↔ ∃ p, p ∈ l ∧ accepted p ∧ last_round p = r.
Proof.
  intros E.
  destruct (reduce_Some l init init_well_formed) as (t' & E' & _ & _ & Hd).
  rewrite E in E'. simplify_eq. rewrite Hd. split.
  - intros [[b Hb]|(p & Hp & Hacc & [?|?])]; simplify_eq.
    + unfold init in Hb. by rewrite lookup_singleton_ne in Hb.
    + by exists p.
  - intros (p & Hp & Hacc & <-). right. exists p. split; [done|].
    split; [done|by right].
Qed.

Lemma pipeline_shape ms :
  pipeline ms = shape (filter (λ m, queue_id m = 1100) ms ≫= participants).
Proof. done. Qed.

Lemma shape_cons x xs :
  shape (x :: xs) =
    (if decide (6 ≤ Z.of_nat (length (p_units x)) ∧
                p_last_round x ∉ excluded_rounds)
     then [Player (Z.of_nat (length (p_units x))) (character_id <$> p_units x)
                  (p_last_round x) (p_placement x)]
     else []) ++ shape xs.
Proof.
  unfold shape. cbv zeta. rewrite fmap_cons, filter_cons. cbn [fst snd].
  destruct (decide (6 ≤ Z.of_nat (length (p_units x)))) as [H6|H6].
  - rewrite filter_cons. cbn [fst snd].
    destruct (decide (p_last_round x ∉ excluded_rounds)) as [Hr|Hr].
    + rewrite decide_True by done. done.
    + rewrite decide_False by tauto. done.
  - rewrite decide_False by tauto. done.
Qed.

Lemma shape_app xs ys : shape (xs ++ ys) = shape xs ++ shape ys.
Proof.
  induction xs as [|x xs IH]; [done|].
  rewrite <-app_comm_cons, !shape_cons, IH. by rewrite (assoc_L (++)).
Qed.

Lemma shape_filter xs :
  shape (filter (λ x, p_last_round x ∉ excluded_rounds) xs) = shape xs.
Proof.
  induction xs as [|x xs IH]; [done|].
  rewrite filter_cons.
  destruct (decide (p_last_round x ∉ excluded_rounds)) as [Hr|Hr].
  - by rewrite !shape_cons, IH.
  - rewrite shape_cons, IH. rewrite decide_False by tauto. done.
Qed.

(** The pipeline yields the same records with and without the participants
    that ended on an excluded round. *)
Lemma pipeline_without_excluded ms :
  pipeline (without_excluded ms) = pipeline ms.
Proof.
  rewrite !pipeline_shape. induction ms as [|m ms IH]; [done|].
  unfold without_excluded. rewrite fmap_cons. fold (without_excluded ms).
  rewrite !filter_cons. cbn [queue_id].
  destruct (decide (queue_id m = 1100)); [|done].
  rewrite !bind_cons, !shape_app, IH. cbn [participants].
  by rewrite shape_filter.
Qed.

(** C8: no record the pipeline yields has its last round among
    11, 15, 18, 22, 25, 29, 32, 36, 39, 43, 46, 50; none of these rounds is an
    outer key of the dictionary, before or after the final pass; and the
    participants that ended on such a round change nothing in the result. *)
Theorem excluded_rounds_absent (ms : list match_doc) :
  (∀ p, p ∈ pipeline ms → last_round p ∉ excluded_rounds) ∧
  (∀ t r, reduce init (pipeline ms) = Some t →
     r ∈ excluded_rounds → t !! KRound r = None) ∧
  (∀ t r, analysis (pipeline ms) = Some t →
     r ∈ excluded_rounds → t !! KRound r = None) ∧
  analysis (pipeline (without_excluded ms)) = analysis (pipeline ms).
Proof.
  assert (∀ t r, reduce init (pipeline ms) = Some t →
            r ∈ excluded_rounds → t !! KRound r = None) as Hloop.
  { intros t r E Hr. apply eq_None_not_Some.
    intros (p & Hp & _ & <-)%(round_keys _ _ _ E).
    by apply pipeline_elem in Hp as [? _]. }
  split; [|split; [done|split]].
  - intros p Hp. by apply pipeline_elem in Hp as [? _].
  - intros t r (t0 & E0 & _ & ->)%analysis_Some Hr.
    apply eq_None_not_Some. rewrite averages_is_Some.
    by rewrite (Hloop t0 r E0 Hr).
  - by rewrite pipeline_without_excluded.
Qed.

(** On the match with a player out at round 15 and a player out at round
    20, the run ends well with a bucket for round 20 and none for round 15. *)
Lemma excluded_rounds_absent_witness :
  ∃ t, analysis (pipeline [carousel_match]) = Some t ∧
       t !! KRound 15 = None ∧ is_Some (t !! KRound 20).
Proof.
  assert (pipeline [carousel_match] =
            [Player 6 (character_id <$> six_units) 20 3]) as Hp by reflexivity.
  assert (accepted (Player 6 (character_id <$> six_units) 20 3)) as Hacc.
  { intros H. by apply H. }
  destruct (analysis_is_Some (pipeline [carousel_match])) as [t E].
  { rewrite Hp. eexists. split; [apply list_elem_of_here|exact Hacc]. }
  exists t. split; [exact E|]. split.
  - apply (proj1 (proj2 (proj2 (excluded_rounds_absent [carousel_match]))) t 15 E).
    clear E. apply (bool_decide_unpack _). vm_compute. exact I.
  - apply analysis_Some in E as (t0 & E0 & _ & ->).
    apply averages_is_Some, (round_keys _ _ _ E0).
    rewrite Hp. eexists. split; [apply list_elem_of_here|]. split; [exact Hacc|].
    reflexivity.
Defined.

(** ** Bounds of the averages *)

(** C9: for a non-empty stream whose placements all lie in 1..8, every
    average of the dictionary the final pass leaves lies between 1 and 8
    (the averages being the exact quotients of sum by count); and the pass
    does leave a dictionary as soon as one record of the stream is
    accepted. *)
Theorem average_within_1_8 (l : list player) :
  l ≠ [] →
  (∀ p, p ∈ l → 1 ≤ placement p ≤ 8) →
  ((∃ p, p ∈ l ∧ accepted p) → is_Some (analysis l)) ∧
  ∀ t rk k a, analysis l = Some t → get t rk k = Some a →
    ∃ q, avg_place a = Float q ∧ (Qc_of_Z 1 ≤ q ≤ Qc_of_Z 8)%Qc.
Proof.
  intros _ Hl. split; [apply analysis_is_Some|].
  intros t rk k a (t0 & E0 & Hnz & ->)%analysis_Some.
  rewrite get_averages.
  destruct (get t0 rk k) as [a0|] eqn:Ha0; [|done]. intros [= <-].
  eexists. split; [done|].
  pose proof (Hnz rk k a0 Ha0) as Hc.
  destruct (reduce_init l) as (t1 & E1 & _ & Hg).
  rewrite E0 in E1. simplify_eq. rewrite Hg in Ha0.
  apply entry_Some in Ha0 as [Hcount Hsum]. rewrite Hcount, Hsum in *.
  cbn [to_Qc]. pose proof (psum_bounds 1 8 l (rk, k) Hl).
  apply quotient_bounds; lia.
Qed.

Lemma average_within_1_8_witness :
  ∃ t, analysis [ashe_jinx; ashe_alone] = Some t ∧
    ∀ rk k a, get t rk k = Some a →
      ∃ q, avg_place a = Float q ∧ (Qc_of_Z 1 ≤ q ≤ Qc_of_Z 8)%Qc.
Proof.
  assert ([ashe_jinx; ashe_alone] ≠ []) as Hne by (intros H; discriminate H).
  assert (∀ p, p ∈ [ashe_jinx; ashe_alone] → 1 ≤ placement p ≤ 8) as Hl.
  { intros p Hp. apply elem_of_cons in Hp as [->|Hp]; [simpl; lia|].
    apply elem_of_cons in Hp as [->|Hp]; [simpl; lia|].
    apply elem_of_nil in Hp. destruct Hp. }
  destruct (average_within_1_8 [ashe_jinx; ashe_alone] Hne Hl) as [Hsome Hin].
  destruct Hsome as [t E].
  { exists ashe_jinx. split; [apply list_elem_of_here|apply ashe_jinx_accepted]. }
  exists t. split; [exact E|].
  intros rk k a. apply (Hin t rk k a E).
Defined.

(** ** How often one record increments an entry *)

Lemma occ_cons k y keys :
  occ k (y :: keys) = if decide (y = k) then S (occ k keys) else occ k keys.
Proof. unfold occ. rewrite filter_cons. by case_decide. Qed.

Lemma occ_not_elem k keys : k ∉ keys → occ k keys = 0%nat.
Proof.
  induction keys as [|y keys IH]; [done|].
  rewrite occ_cons, not_elem_of_cons. intros [? ?].
  rewrite decide_False by done. auto.
Qed.

Lemma occ_NoDup k keys : NoDup keys → k ∈ keys → occ k keys = 1%nat.
Proof.
  induction 1 as [|y keys Hy Hnd IH]; [by intros ?%elem_of_nil|].
  rewrite occ_cons, elem_of_cons. intros [->|Hk].
  - rewrite decide_True by done. by rewrite occ_not_elem.
  - rewrite decide_False; [auto|]. intros ->. done.
Qed.

Lemma mult_key_targets lr keys rk k :
  mult (key_targets lr keys) (rk, k) =
    if decide (rk = KTotal ∨ rk = KRound lr) then occ k keys else 0%nat.
Proof.
  induction keys as [|y keys IH].
  - by case_decide.
  - change (key_targets lr (y :: keys))
      with ((KRound lr, y) :: (KTotal, y) :: key_targets lr keys).
    rewrite !mult_cons, IH, occ_cons. clear IH. decide_cases.
Qed.

Lemma mult_targets p rk k :
  mult (targets p) (rk, k) =
    if decide (rk = KTotal ∨ rk = KRound (last_round p))
    then ((if decide (k = "total"%string) then 1 else 0)
          + occ k (keys_list p))%nat
    else 0%nat.
Proof.
  unfold targets. rewrite !mult_cons, mult_key_targets. decide_cases.
Qed.

(** ** Counting records *)

Lemma mult_targets_plain p rk k :
  plain_keys p →
  mult (targets p) (rk, k) =
    if decide (rk = KTotal ∨ rk = KRound (last_round p))
    then (if decide (k = "total"%string ∨ k ∈ keys_list p) then 1 else 0)%nat
    else 0%nat.
Proof.
  intros [Hnd Htot]. rewrite mult_targets.
  case_decide as Hrk; [|done].
  destruct (decide (k = "total"%string)) as [->|Hk].
  - rewrite occ_not_elem by done. rewrite decide_True by (by left). done.
  - destruct (decide (k ∈ keys_list p)) as [Hin|Hnin].
    + rewrite occ_NoDup by done. by rewrite decide_True by (by right).
    + rewrite occ_not_elem by done. rewrite decide_False; [done|tauto].
Qed.

Lemma incs_plain l rk k :
  (∀ p, p ∈ l → accepted p → plain_keys p) →
  incs l (rk, k) = length (filter (observed rk k) l).
Proof.
  induction l as [|p l IH]; intros Hl; [done|].
  rewrite incs_cons, IH by (intros q Hq; apply Hl; by right).
  destruct (decide (has_duplicate_units p)) as [Hdup|Hacc].
  - rewrite filter_cons_False; [done|]. intros [[Hacc _] _]. by apply Hacc.
  - rewrite mult_targets_plain by (apply Hl; [apply list_elem_of_here|done]).
    destruct (decide (rk = KTotal ∨ rk = KRound (last_round p))) as [Hrk|Hrk].
    + destruct (decide (k = "total"%string ∨ k ∈ keys_list p)) as [Hk|Hk].
      * by rewrite filter_cons_True by done.
      * rewrite filter_cons_False; [done|]. by intros [_ ?].
    + rewrite filter_cons_False; [done|]. by intros [[_ ?] _].
Qed.

(** The count of an entry of the final dictionary is the number of its
    increments. *)
Lemma analysis_count l t rk k a :
  analysis l = Some t → get t rk k = Some a →
  count a = Z.of_nat (incs l (rk, k)).
Proof.
  intros (t0 & E0 & _ & ->)%analysis_Some. rewrite get_averages.
  destruct (get t0 rk k) as [a0|] eqn:Ha0; [|done]. intros [= <-].
  destruct (reduce_init l) as (t1 & E1 & _ & Hg).
  rewrite E0 in E1. simplify_eq. rewrite Hg in Ha0.
  apply entry_Some in Ha0 as [Hc _]. exact Hc.
Qed.

Lemma two_ashes_accepted : accepted two_ashes.
Proof. intros H. by apply H. Qed.

(** C2, one accepted record with two units of the same trailing name: the
    entry [5][Ashe] counts 2, and one record only ends at round 5 with
    Ashe. *)
Lemma count_exceeds_records :
  ∃ t, analysis [two_ashes] = Some t ∧
    get t (KRound 5) "Ashe" = Some (Aggregate 2 (Float (Qc_of_Z 2))) ∧
    length (filter (observed (KRound 5) "Ashe") [two_ashes]) = 1%nat.
Proof.
  destruct (analysis_is_Some [two_ashes]) as [t E].
  { exists two_ashes. split; [apply list_elem_of_here|apply two_ashes_accepted]. }
  exists t. split; [exact E|].
  assert (get t (KRound 5) "Ashe" =
            analysis [two_ashes] ≫= λ t, get t (KRound 5) "Ashe") as ->.
  { by rewrite E. }
  clear. split; [vm_compute; by apply Aggregate_Float_eq|]. reflexivity.
Qed.

(** C2, amended: when the champion names of every accepted record are
    pairwise different and none is the word ['total'], the count of every
    entry [t[r][c]] of the final dictionary is the number of accepted records
    that end at round [r] (any round for ['total']) and field [c] (any
    champion for ['total']). *)
Theorem count_conservation (l : list player) (t : results) :
  (∀ p, p ∈ l → accepted p → plain_keys p) →
  analysis l = Some t →
  ∀ rk k a, get t rk k = Some a →
    count a = Z.of_nat (length (filter (observed rk k) l)).
Proof.
  intros Hl E rk k a Ha.
  rewrite (analysis_count l t rk k a E Ha). f_equal. by apply incs_plain.
Qed.

Lemma count_conservation_witness :
  ∃ t, analysis [ashe_jinx; ashe_alone] = Some t ∧
    ∀ rk k a, get t rk k = Some a →
      count a =
        Z.of_nat (length (filter (observed rk k) [ashe_jinx; ashe_alone])).
Proof.
  destruct (analysis_is_Some [ashe_jinx; ashe_alone]) as [t E].
  { exists ashe_jinx. split; [apply list_elem_of_here|apply ashe_jinx_accepted]. }
  exists t. split; [exact E|].
  apply (count_conservation [ashe_jinx; ashe_alone] t); [|exact E]. clear E.
  intros p Hp _. unfold plain_keys.
  apply elem_of_cons in Hp as [->|Hp].
  { split; apply (bool_decide_unpack _); vm_compute; exact I. }
  apply elem_of_cons in Hp as [->|Hp].
  { split; apply (bool_decide_unpack _); vm_compute; exact I. }
  apply elem_of_nil in Hp. destruct Hp.
Defined.

(** ** The keys of an accepted record *)

(** C3, a record that passes the guard with two different identifiers of the
    same trailing name: its key list repeats Ashe, and the loop body
    increments [5][Ashe] twice. *)
Lemma accepted_record_repeats_key :
  accepted two_ashes ∧
  keys_list two_ashes = ["Ashe"; "Ashe"]%string ∧
  ¬ NoDup (keys_list two_ashes) ∧
  (fold_player init two_ashes ≫= λ t, get t (KRound 5) "Ashe")
    = Some (Aggregate 2 (Int 4)).
Proof.
  split; [apply two_ashes_accepted|]. split; [reflexivity|].
  split; [|by vm_compute].
  intros H. apply NoDup_cons in H as [H _]. apply H, list_elem_of_here.
Qed.

(** C3, amended: a record that passes the guard and whose [num_units] is the
    length of its [units] has pairwise different unit identifiers and one key
    per unit; when no two of its units share the trailing segment of their
    identifiers, its key list has no duplicate and the loop body increments
    [results[last_round][k]] and [results['total'][k]] exactly once for each
    of its keys [k] other than ['total']. *)
Theorem accepted_record_keys (p : player) :
  accepted p →
  num_units p = Z.of_nat (length (units p)) →
  NoDup (units p) ∧
  length (keys_list p) = length (units p) ∧
  ((∀ u v, u ∈ units p → v ∈ units p → unit_name u = unit_name v → u = v) →
   NoDup (keys_list p) ∧
   ∀ t t' k,
     has_totals t → fold_player t p = Some t' →
     k ∈ keys_list p → k ≠ "total"%string →
     get t' (KRound (last_round p)) k =
       hit (placement p) (get t (KRound (last_round p)) k) ∧
     get t' KTotal k = hit (placement p) (get t KTotal k)).
Proof.
  intros Hacc Hlen.
  assert (NoDup (units p)) as Hnd.
  { destruct (decide (NoDup (units p))) as [?|Hn]; [done|].
    destruct Hacc. by apply has_duplicate_units_NoDup. }
  split; [done|]. split; [apply length_fmap|].
  intros Hinj.
  assert (NoDup (keys_list p)) as Hkeys by by apply NoDup_fmap_2_strong.
  split; [done|].
  intros t t' k Ht E Hk Hne.
  destruct (fold_player_well_formed t p t' Ht E) as [_ Hwf].
  destruct (Hwf Hacc) as [Hwft _].
  destruct (fold_player_accepted t p Hwft Hacc) as (t'' & E' & [Hg _] & _).
  rewrite E in E'. simplify_eq.
  rewrite !Hg, !mult_targets.
  rewrite (decide_True (P := _ ∨ _)) by (by right).
  rewrite (decide_True (P := _ ∨ _)) by (by left).
  rewrite decide_False by done. by rewrite occ_NoDup.
Qed.

Lemma accepted_record_keys_witness :
  NoDup (keys_list ashe_jinx) ∧
  ∃ t', fold_player init ashe_jinx = Some t' ∧
    get t' (KRound 5) "Jinx" = hit 2 (get init (KRound 5) "Jinx") ∧
    get t' KTotal "Jinx" = hit 2 (get init KTotal "Jinx").
Proof.
  assert (num_units ashe_jinx = Z.of_nat (length (units ashe_jinx))) as Hlen
    by reflexivity.
  destruct (accepted_record_keys ashe_jinx ashe_jinx_accepted Hlen)
    as (_ & _ & H).
  destruct H as [Hnd Hhit].
  { intros u v Hu Hv Huv. simpl in Hu, Hv.
    repeat match goal with
           | H : _ ∈ _ :: _ |- _ => apply elem_of_cons in H as [->|H]
           | H : _ ∈ [] |- _ => apply elem_of_nil in H; destruct H
           end;
      first [reflexivity | vm_compute in Huv; discriminate Huv]. }
  split; [exact Hnd|].
  destruct (fold_player_accepted init ashe_jinx init_well_formed
              ashe_jinx_accepted) as (t' & E & _).
  exists t'. split; [exact E|].
  apply (Hhit init t' "Jinx"%string); [apply init_well_formed|exact E| |].
  - apply (bool_decide_unpack _). vm_compute. exact I.
  - intros H. discriminate H.
Defined.

(** ** Order of the records, and merging partial dictionaries *)

Lemma get_merge t1 t2 rk k :
  get (merge t1 t2) rk k =
    union_with (λ a1 a2, Some (merge_aggregate a1 a2))
               (get t1 rk k) (get t2 rk k).
Proof.
  unfold get, merge. rewrite lookup_union_with.
  destruct (t1 !! rk) as [b1|], (t2 !! rk) as [b2|]; simpl; try done.
  - unfold merge_bucket. by rewrite lookup_union_with.
  - by destruct (b1 !! k).
  - by destruct (b2 !! k).
Qed.

Lemma merge_is_Some t1 t2 rk :
  is_Some (merge t1 t2 !! rk) ↔ is_Some (t1 !! rk) ∨ is_Some (t2 !! rk).
Proof.
  unfold merge. rewrite lookup_union_with.
  destruct (t1 !! rk) as [b1|], (t2 !! rk) as [b2|]; simpl;
    rewrite ?is_Some_alt; tauto.
Qed.

Lemma merge_entry seed n1 s1 n2 s2 :
  (n1 = 0%nat → s1 = 0) → (n2 = 0%nat → s2 = 0) →
  union_with (λ a1 a2, Some (merge_aggregate a1 a2))
             (entry seed n1 s1) (entry seed n2 s2)
  = entry seed (n1 + n2) (s1 + s2).
Proof.
  intros H1 H2. unfold entry, merge_aggregate.
  destruct seed, n1 as [|n1], n2 as [|n2];
    try rewrite (H1 eq_refl); try rewrite (H2 eq_refl);
    cbn [union_with option_union_with count avg_place num_plus Nat.add];
    try done; apply (f_equal Some); f_equal; try lia; f_equal; lia.
Qed.

Lemma has_totals_merge t1 t2 :
  has_totals t1 → has_totals t2 → has_totals (merge t1 t2).
Proof.
  intros H1 H2. apply has_totals_alt. intros rk Hrk.
  rewrite get_merge. apply merge_is_Some in Hrk as [Hrk|Hrk].
  - destruct (has_totals_get t1 rk H1 Hrk) as [a ->].
    destruct (get t2 rk "total"%string); by eexists.
  - destruct (has_totals_get t2 rk H2 Hrk) as [a ->].
    destruct (get t1 rk "total"%string); by eexists.
Qed.

(** The loop ends with the same dictionary on two streams that increment
    every entry as often and by as much. *)
Lemma reduce_init_ext l1 l2 :
  (∀ x, incs l1 x = incs l2 x) → (∀ x, psum l1 x = psum l2 x) →
  reduce init l1 = reduce init l2.
Proof.
  intros Hn Hs.
  destruct (reduce_init l1) as (t1 & E1 & Hwf1 & Hg1).
  destruct (reduce_init l2) as (t2 & E2 & Hwf2 & Hg2).
  rewrite E1, E2. f_equal.
  apply results_ext; [apply Hwf1|apply Hwf2|].
  intros rk k. by rewrite Hg1, Hg2, Hn, Hs.
Qed.

Lemma reduce_commutes A B : reduce init (A ++ B) = reduce init (B ++ A).
Proof.
  apply reduce_init_ext; intros x.
  - rewrite !incs_app. lia.
  - rewrite !psum_app. lia.
Qed.

Lemma reduce_merge A B tA tB :
  reduce init A = Some tA → reduce init B = Some tB →
  reduce init (A ++ B) = Some (merge tA tB).
Proof.
  intros EA EB.
  destruct (reduce_init A) as (tA' & EA' & HwfA & HgA).
  destruct (reduce_init B) as (tB' & EB' & HwfB & HgB).
  destruct (reduce_init (A ++ B)) as (t & E & Hwf & Hg).
  rewrite EA in EA'. rewrite EB in EB'. simplify_eq.
  rewrite E. f_equal.
  apply results_ext; [apply Hwf|apply has_totals_merge; [apply HwfA|apply HwfB]|].
  intros rk k. rewrite get_merge, Hg, HgA, HgB.
  rewrite merge_entry by apply psum_0.
  by rewrite incs_app, psum_app.
Qed.

(** C6: folding the batch [A] and then [B] from the seeded dictionary and
    running the final pass gives what folding [B] and then [A] gives, and
    what the final pass gives on the merge of the dictionaries folded from
    [A] and from [B] apart (a run that stops on the division by zero stops
    in all three). *)
Theorem batches_commute_and_merge (A B : list player) :
  (reduce init A ≫= λ t, reduce t B) ≫= finalize
    = (reduce init B ≫= λ t, reduce t A) ≫= finalize ∧
  (reduce init A ≫= λ t, reduce t B) ≫= finalize
    = (tA ← reduce init A; tB ← reduce init B; finalize (merge tA tB)).
Proof.
  rewrite <-!reduce_app. split.
  - by rewrite reduce_commutes.
  - destruct (reduce_init A) as (tA & EA & _).
    destruct (reduce_init B) as (tB & EB & _).
    rewrite (reduce_merge A B tA tB EA EB), EA, EB. done.
Qed.

(** * Further properties of the script *)

(** ** The champion name of a unit identifier *)

Lemma split_underscore_cons s :
  ∃ seg segs, split_underscore s = seg :: segs.
Proof.
  destruct s as [|c rest]; simpl; [by eexists _, _|].
  destruct (Ascii.eqb c underscore); [by eexists _, _|].
  destruct (split_underscore rest); by eexists _, _.
Qed.

Lemma split_no_underscore s :
  no_underscore s = true → split_underscore s = [s].
Proof.
  induction s as [|c rest IH]; [done|]. simpl.
  destruct (Ascii.eqb c underscore); [done|]. simpl.
  intros H. by rewrite (IH H).
Qed.

Lemma split_with_underscore s :
  no_underscore s = false →
  ∃ seg seg' segs, split_underscore s = seg :: seg' :: segs.
Proof.
  induction s as [|c rest IH]; [done|]. simpl.
  destruct (Ascii.eqb c underscore); simpl.
  - intros _. destruct (split_underscore_cons rest) as (seg & segs & ->).
    by eexists _, _, _.
  - intros H. destruct (IH H) as (seg & seg' & segs & ->). by eexists _, _, _.
Qed.

Lemma unit_name_underscore rest :
  unit_name (String underscore rest) = unit_name rest.
Proof.
  unfold unit_name. simpl.
  by destruct (split_underscore_cons rest) as (seg & segs & ->).
Qed.

Lemma unit_name_other c rest :
  Ascii.eqb c underscore = false → no_underscore rest = false →
  unit_name (String c rest) = unit_name rest.
Proof.
  intros Hc Hrest. unfold unit_name. simpl. rewrite Hc.
  by destruct (split_with_underscore rest Hrest) as (seg & seg' & segs & ->).
Qed.

Lemma unit_name_plain s : no_underscore s = true → unit_name s = s.
Proof. intros H. unfold unit_name. by rewrite split_no_underscore. Qed.

Lemma no_underscore_app s1 s2 :
  no_underscore (s1 +:+ s2) = no_underscore s1 && no_underscore s2.
Proof.
  induction s1 as [|c s1 IH]; [done|]. simpl. rewrite IH.
  by rewrite andb_assoc.
Qed.

(** X1: the champion name of an identifier that ends in ['_'] followed by a
    string [s] without ['_'] is [s], whatever comes before; an identifier
    without ['_'] is its own champion name. *)
Theorem unit_name_suffix (pre s : string) :
  no_underscore s = true →
  unit_name (pre +:+ String underscore s) = s ∧ unit_name s = s.
Proof.
  intros Hs. split; [|by apply unit_name_plain].
  induction pre as [|c pre IH].
  - change (unit_name (String underscore s) = s).
    rewrite unit_name_underscore. by apply unit_name_plain.
  - change (unit_name (String c (pre +:+ String underscore s)) = s).
    destruct (Ascii.eqb c underscore) eqn:Hc.
    + apply Ascii.eqb_eq in Hc as ->. by rewrite unit_name_underscore.
    + rewrite unit_name_other; [done..|].
      rewrite no_underscore_app. cbn [no_underscore].
      rewrite Ascii.eqb_refl. apply andb_false_r.
Qed.

Lemma unit_name_suffix_witness :
  unit_name "TFT3_Ashe" = "Ashe"%string ∧ unit_name "Ashe" = "Ashe"%string.
Proof. apply (unit_name_suffix "TFT3" "Ashe"). reflexivity. Defined.

(** X2: a champion name never holds ['_'], and taking the champion name
    twice changes nothing more. *)
Theorem unit_name_no_underscore (s : string) :
  no_underscore (unit_name s) = true ∧
  unit_name (unit_name s) = unit_name s.
Proof.
  assert (no_underscore (unit_name s) = true) as H.
  { induction s as [|c rest IH]; [done|].
    destruct (Ascii.eqb c underscore) eqn:Hc.
    - apply Ascii.eqb_eq in Hc as ->. by rewrite unit_name_underscore.
    - destruct (no_underscore rest) eqn:Hrest.
      + rewrite unit_name_plain; cbn [no_underscore]; by rewrite Hc, Hrest.
      + by rewrite unit_name_other. }
  split; [done|]. by apply unit_name_plain.
Qed.

(** ** What the pipeline yields *)

Lemma shape_elem p xs :
  p ∈ shape xs ↔
  ∃ x, x ∈ xs ∧ 6 ≤ Z.of_nat (length (p_units x)) ∧
       (p_last_round x ∉ excluded_rounds) ∧ p = shaped x.
Proof.
  induction xs as [|x xs IH].
  - split; [by intros ?%elem_of_nil|]. by intros (x & ?%elem_of_nil & _).
  - rewrite shape_cons, elem_of_app, IH. split.
    + intros [Hp|(y & Hy & H)].
      * case_decide as Hd; [|by apply elem_of_nil in Hp].
        apply list_elem_of_singleton in Hp as ->. destruct Hd.
        exists x. split; [apply list_elem_of_here|done].
      * exists y. split; [by right|done].
    + intros (y & Hy & H6 & Hr & ->).
      apply elem_of_cons in Hy as [->|Hy].
      * left. rewrite decide_True by done. apply list_elem_of_here.
      * right. by exists y.
Qed.

Lemma shape_qualifies xs : shape xs = shaped <$> filter qualifies xs.
Proof.
  induction xs as [|x xs IH]; [done|].
  rewrite shape_cons, IH, filter_cons. unfold qualifies at 2.
  by case_decide.
Qed.

(** X3: the pipeline yields, match after match and participant after
    participant, one document for each participant of a match of queue 1100
    that fields at least six units and whose last round is not in the [$nin]
    list, and nothing else: no record is dropped, repeated or moved.  So a
    document is yielded exactly when it is shaped from such a participant. *)
Theorem pipeline_yields (ms : list match_doc) :
  pipeline ms = ms ≫= records_of_match ∧
  ∀ p, p ∈ pipeline ms ↔
    ∃ m x, m ∈ ms ∧ queue_id m = 1100 ∧ x ∈ participants m ∧
           6 ≤ Z.of_nat (length (p_units x)) ∧
           (p_last_round x ∉ excluded_rounds) ∧ p = shaped x.
Proof.
  split.
  - rewrite pipeline_shape. induction ms as [|m ms IH]; [done|].
    rewrite filter_cons, bind_cons, <-IH. unfold records_of_match at 1.
    destruct (decide (queue_id m = 1100)); [|done].
    by rewrite bind_cons, shape_app, shape_qualifies.
  - intros p. rewrite pipeline_shape, shape_elem. split.
    + intros (x & Hx & H6 & Hr & ->).
      apply list_elem_of_bind in Hx as (m & Hx & Hm).
      apply list_elem_of_filter in Hm as [Hq Hm].
      by exists m, x.
    + intros (m & x & Hm & Hq & Hx & H6 & Hr & ->).
      exists x. split; [|done].
      apply list_elem_of_bind. exists m. split; [done|].
      by apply list_elem_of_filter.
Qed.

Lemma pipeline_app ms1 ms2 :
  pipeline (ms1 ++ ms2) = pipeline ms1 ++ pipeline ms2.
Proof.
  rewrite !pipeline_shape, filter_app, bind_app. apply shape_app.
Qed.

(** X4: the pipeline runs match by match: on two collections one after the
    other it yields the records of the first followed by those of the
    second, and the loop on them is the loop on the first continued on the
    second. *)
Theorem pipeline_of_collections (ms1 ms2 : list match_doc) :
  pipeline (ms1 ++ ms2) = pipeline ms1 ++ pipeline ms2 ∧
  reduce init (pipeline (ms1 ++ ms2))
    = reduce init (pipeline ms1) ≫= λ t, reduce t (pipeline ms2).
Proof.
  split; [apply pipeline_app|]. by rewrite pipeline_app, reduce_app.
Qed.

(** X5: on a record the pipeline yields, [num_units] is the length of
    [units], so the guard of the loop accepts it exactly when no unit
    identifier occurs twice, and an accepted record has at least six
    different identifiers. *)
Theorem pipeline_guard (ms : list match_doc) (p : player) :
  p ∈ pipeline ms →
  (accepted p ↔ NoDup (units p)) ∧
  (accepted p → (6 ≤ size (list_to_set (units p) : gset string))%nat).
Proof.
  intros (Hr & Hlen & H6)%pipeline_elem.
  assert (accepted p ↔ NoDup (units p)) as Hiff.
  { unfold accepted. rewrite (has_duplicate_units_NoDup p Hlen).
    split; [|tauto]. intros H. by destruct (decide (NoDup (units p))). }
  split; [done|]. intros Hacc.
  apply Hiff in Hacc. apply distinct_NoDup in Hacc. lia.
Qed.

Lemma pipeline_guard_witness :
  accepted (shaped (Participant six_units 20 3)) ↔
  NoDup (units (shaped (Participant six_units 20 3))).
Proof.
  apply (pipeline_guard [carousel_match]).
  change (pipeline [carousel_match])
    with [shaped (Participant six_units 20 3)].
  apply list_elem_of_here.
Defined.

(** ** The loop body on an arbitrary dictionary *)

Lemma incr_None rk k place t :
  get t rk k = None → incr rk k place t = None.
Proof.
  unfold get, incr. destruct (t !! rk) as [b|]; simpl; [|done].
  by intros ->.
Qed.

Lemma add_keys_inv lr place keys : ∀ t t',
  add_keys lr place keys t = Some t' →
  effect (key_targets lr keys) place t t'.
Proof.
  induction keys as [|key rest IH]; intros t t' E.
  - simpl in E. simplify_eq. apply effect_nil.
  - simpl in E.
    destruct (add_key (KRound lr) key place t) as [t1|] eqn:E1; [|done].
    simpl in E.
    destruct (add_key KTotal key place t1) as [t2|] eqn:E2; [|done].
    simpl in E.
    change (key_targets lr (key :: rest))
      with ((KRound lr, key) :: (KTotal, key) :: key_targets lr rest).
    eapply effect_cons; [by apply add_key_inv|].
    eapply effect_cons; [by apply add_key_inv|]. by apply IH.
Qed.

Lemma add_keys_is_Some lr place keys : ∀ t,
  is_Some (t !! KRound lr) → is_Some (t !! KTotal) →
  is_Some (add_keys lr place keys t).
Proof.
  induction keys as [|key rest IH]; intros t Hlr Htot; [by eexists|].
  simpl.
  destruct (add_key_Some (KRound lr) key place t Hlr) as (t1 & -> & [_ Hd1]).
  simpl.
  assert (is_Some (t1 !! KTotal)) as Htot1 by (apply Hd1; by right).
  destruct (add_key_Some KTotal key place t1 Htot1) as (t2 & -> & [_ Hd2]).
  simpl. apply IH; apply Hd2; right; [|done]. apply Hd1. by right.
Qed.

(** Whenever the loop body ends well on an accepted record, it has made
    one increment per target of the record. *)
Lemma fold_player_effect t p t' :
  accepted p → fold_player t p = Some t' →
  effect (targets p) (placement p) t t'.
Proof.
  intros Hacc E. unfold fold_player in E. rewrite decide_False in E by done.
  destruct (incr KTotal "total" (placement p) t) as [t1|] eqn:E1; [|done].
  simpl in E.
  destruct (round_total (last_round p) (placement p) t1) as [t2|] eqn:E2;
    [|done].
  simpl in E. unfold targets.
  eapply effect_cons; [by apply incr_inv|].
  eapply effect_cons; [by apply round_total_inv|]. by apply add_keys_inv.
Qed.

(** X6: the loop body raises a [KeyError] exactly on an accepted record
    when [results['total']['total']] is missing, or when the bucket of the
    record's last round exists without its ['total'] entry. *)
Theorem fold_player_key_error (t : results) (p : player) :
  fold_player t p = None ↔
  accepted p ∧
  (get t KTotal "total" = None ∨
   (is_Some (t !! KRound (last_round p)) ∧
    get t (KRound (last_round p)) "total" = None)).
Proof.
  destruct (decide (has_duplicate_units p)) as [Hdup|Hacc].
  { rewrite fold_player_rejected by done. split; [done|].
    intros [Hacc _]. by destruct Hacc. }
  unfold fold_player. rewrite decide_False by done.
  destruct (get t KTotal "total") as [a|] eqn:Ha.
  2:{ rewrite incr_None by done. simpl. split; [|done].
      intros _. split; [done|by left]. }
  destruct (incr_Some KTotal "total" (placement p) t a Ha)
    as (t1 & -> & [Hg1 Hd1]).
  simpl.
  assert (get t1 (KRound (last_round p)) "total"
          = get t (KRound (last_round p)) "total") as Hsame.
  { rewrite Hg1. by rewrite decide_False. }
  assert (is_Some (t1 !! KRound (last_round p))
          ↔ is_Some (t !! KRound (last_round p))) as Hdom.
  { rewrite Hd1. split; [by intros [?|?]|by right]. }
  assert (∀ t2, hits_once (KRound (last_round p)) "total" (placement p) t1 t2 →
            is_Some (add_keys (last_round p) (placement p) (keys_list p) t2))
    as Hkeys.
  { intros t2 [_ Hd2]. apply add_keys_is_Some; apply Hd2; [by left|].
    right. apply Hd1. by left. }
  rewrite <-Hsame, <-Hdom. clear Hsame Hdom Hg1.
  unfold round_total.
  destruct (t1 !! KRound (last_round p)) as [b1|] eqn:Hb1.
  - destruct (get t1 (KRound (last_round p)) "total") as [a'|] eqn:Ha'.
    + destruct (incr_Some _ _ (placement p) t1 a' Ha') as (t2 & -> & H2).
      simpl. destruct (Hkeys t2 H2) as [t' ->].
      split; [done|]. intros [_ [?|[_ ?]]]; done.
    + rewrite incr_None by done. simpl. split; [|done].
      intros _. split; [done|]. right. split; [by eexists|done].
  - simpl.
    destruct (Hkeys _ (hits_once_create _ "total"%string (placement p) t1 Hb1))
      as [t' ->].
    split; [done|]. intros [_ [?|[Hs _]]]; [done|]. by destruct Hs.
Qed.

(** X7: the loop body leaves alone every bucket other than ['total'] and the
    bucket of the record's last round, and in these two every entry whose
    key is neither ['total'] nor a key of the record. *)
Theorem fold_player_frame (t t' : results) (p : player) :
  fold_player t p = Some t' →
  (∀ rk, rk ≠ KTotal → rk ≠ KRound (last_round p) → t' !! rk = t !! rk) ∧
  (∀ rk k, k ≠ "total"%string → k ∉ keys_list p →
     get t' rk k = get t rk k).
Proof.
  intros E. destruct (decide (has_duplicate_units p)) as [Hdup|Hacc].
  { rewrite fold_player_rejected in E by done. by simplify_eq. }
  destruct (fold_player_effect t p t' Hacc E) as [Hg Hd].
  assert (∀ rk k, rk ≠ KTotal → rk ≠ KRound (last_round p) →
            get t' rk k = get t rk k) as Hother.
  { intros rk k H1 H2. rewrite Hg, mult_targets.
    rewrite decide_False; [done|]. by intros [?|?]. }
  split.
  - intros rk H1 H2.
    assert (is_Some (t' !! rk) ↔ is_Some (t !! rk)) as Hdom.
    { rewrite Hd, targets_rounds. split; [|by left].
      intros [?|[?|?]]; done. }
    destruct (t' !! rk) as [b'|] eqn:Hb', (t !! rk) as [b|] eqn:Hb.
    + f_equal. apply map_eq. intros k.
      specialize (Hother rk k H1 H2). unfold get in Hother.
      by rewrite Hb', Hb in Hother.
    + destruct Hdom as [Hdom _]. by destruct Hdom.
    + destruct Hdom as [_ Hdom]. by destruct Hdom.
    + done.
  - intros rk k Hk Hkeys. rewrite Hg, mult_targets.
    case_decide; [|done].
    rewrite decide_False by done. by rewrite occ_not_elem.
Qed.

Lemma fold_player_frame_witness :
  ∃ t', fold_player init ashe_jinx = Some t' ∧
    (∀ rk, rk ≠ KTotal → rk ≠ KRound 5 → t' !! rk = init !! rk) ∧
    (∀ rk k, k ≠ "total"%string → k ∉ keys_list ashe_jinx →
       get t' rk k = get init rk k).
Proof.
  destruct (fold_player_accepted init ashe_jinx init_well_formed
              ashe_jinx_accepted) as (t' & E & _).
  exists t'. split; [exact E|].
  exact (fold_player_frame init t' ashe_jinx E).
Defined.

Lemma iter_hit_count n place a :
  ∃ a', Nat.iter n (hit place) (Some a) = Some a' ∧
        count a' = count a + Z.of_nat n.
Proof.
  induction n as [|n (a' & IH & Hc)].
  - exists a. split; [done|lia].
  - rewrite Nat.iter_succ, IH. eexists. split; [done|].
    cbn [from_option bump count]. lia.
Qed.

Lemma fold_player_grows t p t' rk k a :
  fold_player t p = Some t' → get t rk k = Some a →
  ∃ a', get t' rk k = Some a' ∧ count a ≤ count a'.
Proof.
  intros E Ha. destruct (decide (has_duplicate_units p)) as [Hdup|Hacc].
  { rewrite fold_player_rejected in E by done. simplify_eq.
    exists a. split; [done|lia]. }
  destruct (fold_player_effect t p t' Hacc E) as [Hg _].
  destruct (iter_hit_count (mult (targets p) (rk, k)) (placement p) a)
    as (a' & Hit & Hc).
  exists a'. rewrite Hg, Ha. split; [done|lia].
Qed.

(** X8: from any dictionary, as long as the loop raises no [KeyError], no
    entry is ever removed and no count ever decreases. *)
Theorem counts_never_decrease (l : list player) (t t' : results) :
  reduce t l = Some t' →
  ∀ rk k a, get t rk k = Some a →
    ∃ a', get t' rk k = Some a' ∧ count a ≤ count a'.
Proof.
  revert t. induction l as [|p l IH]; intros t E rk k a Ha.
  - simpl in E. simplify_eq. exists a. split; [done|lia].
  - simpl in E. destruct (fold_player t p) as [t1|] eqn:E1; [|done].
    simpl in E.
    destruct (fold_player_grows t p t1 rk k a E1 Ha) as (a1 & Ha1 & Hc1).
    destruct (IH t1 E rk k a1 Ha1) as (a' & Ha' & Hc').
    exists a'. split; [done|lia].
Qed.

Lemma counts_never_decrease_witness :
  ∃ t', reduce init [ashe_jinx; ashe_alone] = Some t' ∧
    ∃ a', get t' KTotal "total" = Some a' ∧ 0 ≤ count a'.
Proof.
  destruct (reduce_init [ashe_jinx; ashe_alone]) as (t' & E & _).
  exists t'. split; [exact E|].
  apply (counts_never_decrease [ashe_jinx; ashe_alone] init t' E
           KTotal "total"%string (Aggregate 0 (Int 0))).
  reflexivity.
Defined.

(** ** The entries of the dictionary after the loop *)

Lemma mult_pos_elem x tg : (0 < mult tg x)%nat → x ∈ tg.
Proof.
  intros H. destruct (decide (x ∈ tg)) as [|Hn]; [done|].
  rewrite (mult_0 x tg Hn) in H. lia.
Qed.

Lemma incs_pos_accepted l x :
  (0 < incs l x)%nat → ∃ p, p ∈ l ∧ accepted p ∧ x ∈ targets p.
Proof.
  induction l as [|q l IH]; [unfold incs; simpl; lia|].
  rewrite incs_cons. destruct (decide (has_duplicate_units q)) as [Hdup|Hacc].
  - intros H. destruct IH as (p & Hp & H'); [lia|].
    exists p. split; [by right|done].
  - intros H. destruct (decide (0 < mult (targets q) x)%nat) as [Hq|Hq].
    + exists q. split; [apply list_elem_of_here|].
      split; [done|by apply mult_pos_elem].
    + destruct IH as (p & Hp & H'); [lia|].
      exists p. split; [by right|done].
Qed.

Lemma key_targets_elem lr keys rk k :
  (rk, k) ∈ key_targets lr keys ↔
  k ∈ keys ∧ (rk = KTotal ∨ rk = KRound lr).
Proof.
  unfold key_targets. rewrite list_elem_of_bind. split.
  - intros (y & Hy & Hin).
    apply elem_of_cons in Hy as [Hy|Hy]; [inversion Hy; subst; tauto|].
    apply elem_of_cons in Hy as [Hy|Hy]; [inversion Hy; subst; tauto|].
    by apply elem_of_nil in Hy.
  - intros [Hk [->| ->]]; exists k; (split; [|done]).
    + right. apply list_elem_of_here.
    + apply list_elem_of_here.
Qed.

Lemma targets_observed p rk k :
  accepted p → (rk, k) ∈ targets p ↔ observed rk k p.
Proof.
  intros Hacc. unfold targets, observed, touches.
  rewrite !elem_of_cons, key_targets_elem. split.
  - intros [H|[H|[Hk Hrk]]].
    + inversion H; subst. tauto.
    + inversion H; subst. tauto.
    + tauto.
  - intros [[_ Hrk] [->|Hk]]; [|tauto].
    destruct Hrk as [->| ->]; tauto.
Qed.

(** X9: after the loop on the seeded dictionary an entry [results[r][c]]
    exists exactly when it is the seeded [results['total']['total']] or some
    accepted record ends at the round [r] (any round for ['total']) with [c]
    among its keys (any key for ['total']). *)
Theorem entry_present (l : list player) (t : results) (rk : round_key)
    (k : string) :
  reduce init l = Some t →
  is_Some (get t rk k) ↔
  (rk, k) = (KTotal, "total"%string) ∨ ∃ p, p ∈ l ∧ observed rk k p.
Proof.
  intros E. destruct (reduce_init l) as (t0 & E0 & _ & Hg).
  rewrite E in E0. simplify_eq. rewrite Hg. unfold seeded. split.
  - intros [a Ha].
    destruct (decide ((rk, k) = (KTotal, "total"%string))) as [?|Hne];
      [by left|right].
    rewrite bool_decide_eq_false_2 in Ha by done.
    apply entry_not_seeded, incs_pos_accepted in Ha as (p & Hp & Hacc & Hin).
    exists p. split; [done|]. by apply targets_observed.
  - intros [Heq|(p & Hp & Hobs)].
    + rewrite bool_decide_eq_true_2 by done. by eexists.
    + assert (0 < incs l (rk, k))%nat as Hpos.
      { apply incs_accepted_pos. exists p. split; [done|].
        destruct Hobs as [[Hacc ?] ?]. split; [done|].
        by apply targets_observed. }
      unfold entry. destruct (bool_decide _); [by eexists|].
      destruct (incs l (rk, k)); [lia|by eexists].
Qed.

Lemma entry_present_witness :
  ∃ t, reduce init [ashe_jinx] = Some t ∧
       (is_Some (get t (KRound 5) "Jinx") ↔
        (KRound 5, "Jinx"%string) = (KTotal, "total"%string) ∨
        ∃ p, p ∈ [ashe_jinx] ∧ observed (KRound 5) "Jinx" p).
Proof.
  destruct (reduce_init [ashe_jinx]) as (t & E & _).
  exists t. split; [exact E|].
  exact (entry_present [ashe_jinx] t (KRound 5) "Jinx" E).
Defined.

(** ** The order of the stream *)

Lemma incs_Permutation l1 l2 x : l1 ≡ₚ l2 → incs l1 x = incs l2 x.
Proof.
  induction 1 as [|p l1 l2 _ IH|p q l|l1 l2 l3 _ IH1 _ IH2].
  - done.
  - by rewrite !incs_cons, IH.
  - rewrite !incs_cons. lia.
  - by rewrite IH1.
Qed.

Lemma psum_Permutation l1 l2 x : l1 ≡ₚ l2 → psum l1 x = psum l2 x.
Proof.
  induction 1 as [|p l1 l2 _ IH|p q l|l1 l2 l3 _ IH1 _ IH2].
  - done.
  - by rewrite !psum_cons, IH.
  - rewrite !psum_cons. lia.
  - by rewrite IH1.
Qed.

(** X10: the records may come in any order: two streams with the same
    records give the same dictionary after the loop, and the same outcome of
    the final pass. *)
Theorem any_order (l1 l2 : list player) :
  l1 ≡ₚ l2 →
  reduce init l1 = reduce init l2 ∧ analysis l1 = analysis l2.
Proof.
  intros Hp.
  assert (reduce init l1 = reduce init l2) as E.
  { apply reduce_init_ext; intros x.
    - by apply incs_Permutation.
    - by apply psum_Permutation. }
  split; [done|]. unfold analysis. by rewrite E.
Qed.

Lemma any_order_witness :
  analysis [ashe_jinx; ashe_alone; two_ashes]
    = analysis [two_ashes; ashe_alone; ashe_jinx].
Proof.
  apply (any_order [ashe_jinx; ashe_alone; two_ashes]
                   [two_ashes; ashe_alone; ashe_jinx]).
  exact (Permutation_rev [ashe_jinx; ashe_alone; two_ashes]).
Defined.

(** ** The rollup over the rounds *)

Lemma Zsum_cons z zs : Zsum (z :: zs) = z + Zsum zs.
Proof. done. Qed.

Lemma Zsum_plus {A} (f g : A → Z) (xs : list A) :
  Zsum ((λ x, f x + g x) <$> xs) = Zsum (f <$> xs) + Zsum (g <$> xs).
Proof.
  induction xs as [|x xs IH]; [done|].
  rewrite !fmap_cons, !Zsum_cons, IH. lia.
Qed.

Lemma Zsum_zero {A} (xs : list A) : Zsum ((λ _, 0) <$> xs) = 0.
Proof. induction xs as [|x xs IH]; [done|]. by rewrite fmap_cons, Zsum_cons, IH. Qed.

Lemma Zsum_ext {A} (f g : A → Z) (xs : list A) :
  (∀ x, x ∈ xs → f x = g x) → Zsum (f <$> xs) = Zsum (g <$> xs).
Proof.
  induction xs as [|x xs IH]; intros H; [done|].
  rewrite !fmap_cons, !Zsum_cons, (H x), IH; [done| |apply list_elem_of_here].
  intros y Hy. apply H. by right.
Qed.

Lemma Zsum_pick (rs : list Z) (lr m : Z) :
  NoDup rs → lr ∈ rs →
  Zsum ((λ r, if decide (r = lr) then m else 0) <$> rs) = m.
Proof.
  induction 1 as [|r rs Hr Hnd IH]; [by intros ?%elem_of_nil|].
  rewrite fmap_cons, Zsum_cons, elem_of_cons. intros [->|Hin].
  - rewrite decide_True by done.
    rewrite (Zsum_ext _ (λ _, 0)), Zsum_zero; [lia|].
    intros y Hy. rewrite decide_False; [done|]. by intros ->.
  - rewrite decide_False by (by intros ->). rewrite IH by done. lia.
Qed.

Lemma mult_round p r k :
  mult (targets p) (KRound r, k) =
    if decide (r = last_round p) then mult (targets p) (KTotal, k) else 0%nat.
Proof. rewrite !mult_targets. decide_cases. Qed.

Lemma incs_Zsum l x :
  Z.of_nat (incs l x) =
    Zsum ((λ p, if decide (has_duplicate_units p) then 0
                else Z.of_nat (mult (targets p) x)) <$> l).
Proof.
  induction l as [|p l IH]; [done|].
  rewrite incs_cons, fmap_cons, Zsum_cons, <-IH. case_decide; lia.
Qed.

(** What the accepted records add to the entry [x], each record weighing
    [c p] per increment. *)
Lemma weighted_rollup (c : player → Z) l k rs :
  NoDup rs →
  (∀ p, p ∈ l → accepted p → last_round p ∈ rs) →
  Zsum ((λ p, if decide (has_duplicate_units p) then 0
              else Z.of_nat (mult (targets p) (KTotal, k)) * c p) <$> l)
  = Zsum ((λ r,
      Zsum ((λ p, if decide (has_duplicate_units p) then 0
                  else Z.of_nat (mult (targets p) (KRound r, k)) * c p) <$> l))
      <$> rs).
Proof.
  intros Hnd. induction l as [|p l IH]; intros Hl.
  - simpl. by rewrite Zsum_zero.
  - rewrite fmap_cons, Zsum_cons.
    rewrite (Zsum_ext _ (λ r,
      (if decide (has_duplicate_units p) then 0
       else Z.of_nat (mult (targets p) (KRound r, k)) * c p)
      + Zsum ((λ p, if decide (has_duplicate_units p) then 0
                    else Z.of_nat (mult (targets p) (KRound r, k)) * c p)
              <$> l))) by done.
    rewrite Zsum_plus, <-IH by (intros q Hq; apply Hl; by right).
    f_equal. destruct (decide (has_duplicate_units p)) as [Hdup|Hacc].
    + by rewrite Zsum_zero.
    + rewrite (Zsum_ext _ (λ r, if decide (r = last_round p)
                then Z.of_nat (mult (targets p) (KTotal, k)) * c p else 0)).
      * rewrite Zsum_pick; [done..|]. apply Hl; [apply list_elem_of_here|done].
      * intros r _. rewrite mult_round. case_decide; [done|lia].
Qed.

Lemma count_of_entry seed n s : count_of (entry seed n s) = Z.of_nat n.
Proof. unfold entry. by destruct seed, n. Qed.

Lemma sum_of_entry seed n s :
  (n = 0%nat → s = 0) → sum_of (entry seed n s) = s.
Proof.
  intros H. unfold entry. destruct seed, n; try done.
  simpl. by rewrite H.
Qed.

(** X11: after the loop on the seeded dictionary, for every key [c] the
    count under [results['total'][c]] is the sum of the counts under
    [results[r][c]] over the rounds [r], and so is the cumulative placement
    (a missing entry counting for 0, the rounds being listed once each). *)
Theorem rollup_is_sum_of_rounds (l : list player) (t : results)
    (rs : list Z) (k : string) :
  reduce init l = Some t →
  NoDup rs →
  (∀ r, is_Some (t !! KRound r) → r ∈ rs) →
  count_of (get t KTotal k)
    = Zsum ((λ r, count_of (get t (KRound r) k)) <$> rs) ∧
  sum_of (get t KTotal k)
    = Zsum ((λ r, sum_of (get t (KRound r) k)) <$> rs).
Proof.
  intros E Hnd Hrs.
  assert (∀ p, p ∈ l → accepted p → last_round p ∈ rs) as Hl.
  { intros p Hp Hacc. apply Hrs, (round_keys l t _ E). by exists p. }
  destruct (reduce_init l) as (t0 & E0 & _ & Hg).
  rewrite E in E0. simplify_eq. split.
  - rewrite (Zsum_ext _ (λ r, Z.of_nat (incs l (KRound r, k)))).
    2:{ intros r _. by rewrite Hg, count_of_entry. }
    rewrite Hg, count_of_entry, incs_Zsum.
    rewrite (Zsum_ext _ (λ r,
      Zsum ((λ p, if decide (has_duplicate_units p) then 0
                  else Z.of_nat (mult (targets p) (KRound r, k)) * 1) <$> l))).
    2:{ intros r _. rewrite incs_Zsum. apply Zsum_ext.
        intros p _. case_decide; lia. }
    rewrite <-(weighted_rollup (λ _, 1) l k rs Hnd Hl).
    apply Zsum_ext. intros p _. case_decide; lia.
  - rewrite (Zsum_ext _ (λ r, psum l (KRound r, k))).
    2:{ intros r _. rewrite Hg. apply sum_of_entry, psum_0. }
    rewrite Hg, sum_of_entry by apply psum_0.
    apply (weighted_rollup placement l k rs Hnd Hl).
Qed.

Lemma rollup_is_sum_of_rounds_witness :
  ∃ t, reduce init [ashe_jinx; ashe_alone] = Some t ∧
    count_of (get t KTotal "Ashe")
      = Zsum ((λ r, count_of (get t (KRound r) "Ashe")) <$> [5]) ∧
    sum_of (get t KTotal "Ashe")
      = Zsum ((λ r, sum_of (get t (KRound r) "Ashe")) <$> [5]).
Proof.
  destruct (reduce_init [ashe_jinx; ashe_alone]) as (t & E & _).
  exists t. split; [exact E|].
  apply (rollup_is_sum_of_rounds [ashe_jinx; ashe_alone] t [5] "Ashe" E).
  - apply NoDup_singleton.
  - intros r Hr. apply (round_keys _ _ _ E) in Hr as (p & Hp & _ & <-).
    clear E.
    apply elem_of_cons in Hp as [->|Hp]; [apply list_elem_of_here|].
    apply elem_of_cons in Hp as [->|Hp]; [apply list_elem_of_here|].
    apply elem_of_nil in Hp. destruct Hp.
Defined.

(** ** The final pass on an arbitrary dictionary *)

Lemma finalize_bucket_None b :
  finalize_bucket b = None → ∃ k a, b !! k = Some a ∧ count a = 0.
Proof.
  rewrite finalize_bucket_unfold, in_place_self.
  case_decide as Hall; [done|]. intros _.
  unfold all_defined in Hall.
  apply (map_not_Forall _) in Hall as (k & a & Hk & Ha).
  exists k, a. split; [done|].
  rewrite finalize_aggregate_eq in Ha. case_decide; [done|].
  destruct Ha. by eexists.
Qed.

Lemma finalize_None t :
  finalize t = None → ∃ rk k a, get t rk k = Some a ∧ count a = 0.
Proof.
  rewrite finalize_unfold, in_place_self.
  case_decide as Hall; [done|]. intros _.
  unfold all_defined in Hall.
  apply (map_not_Forall _) in Hall as (rk & b & Hrk & Hb).
  destruct (finalize_bucket b) as [b'|] eqn:E; [destruct Hb; by eexists|].
  destruct (finalize_bucket_None b E) as (k & a & Hk & Ha).
  exists rk, k, a. split; [|done]. unfold get. by rewrite Hrk.
Qed.

Lemma Q_div_within_pos (x : Q) (c M : Z) :
  0 < c →
  (inject_Z (- M) <= x <= inject_Z M)%Q →
  (inject_Z (- M) <= x / inject_Z c <= inject_Z M)%Q.
Proof.
  intros Hc [Hlo Hhi].
  assert (0 <= M) as HM.
  { rewrite Zle_Qle. rewrite inject_Z_opp in Hlo.
    change (inject_Z 0) with 0%Q. lra. }
  assert (0 < inject_Z c)%Q as Hc'.
  { change 0%Q with (inject_Z 0). by rewrite <-Zlt_Qlt. }
  split.
  - apply Qle_shift_div_l; [done|].
    apply Qle_trans with (inject_Z (- M)); [|done].
    rewrite <-inject_Z_mult, <-Zle_Qle. nia.
  - apply Qle_shift_div_r; [done|].
    apply Qle_trans with (inject_Z M); [done|].
    rewrite <-inject_Z_mult, <-Zle_Qle. nia.
Qed.

Lemma Q_div_within (x : Q) (c M : Z) :
  c ≠ 0 →
  (inject_Z (- M) <= x <= inject_Z M)%Q →
  (inject_Z (- M) <= x / inject_Z c <= inject_Z M)%Q.
Proof.
  intros Hc H. destruct (Z_lt_le_dec 0 c) as [Hpos|Hneg].
  - by apply Q_div_within_pos.
  - assert (x / inject_Z c == (- x) / inject_Z (- c))%Q as ->.
    { rewrite inject_Z_opp. field. intros E.
      apply (proj1 (inject_Z_injective c 0)) in E. lia. }
    apply Q_div_within_pos; [lia|].
    rewrite inject_Z_opp in *. lra.
Qed.

(** Dividing by a non-zero integer keeps a value within [-M] and [M]. *)
Lemma quotient_within (q : Qc) (c M : Z) :
  c ≠ 0 →
  (Qc_of_Z (- M) ≤ q ≤ Qc_of_Z M)%Qc →
  (Qc_of_Z (- M) ≤ q / Qc_of_Z c ≤ Qc_of_Z M)%Qc.
Proof.
  intros Hc H. unfold Qcle, Qcdiv, Qcmult, Qcinv, Q2Qc in *.
  cbn [this Qc_of_Z] in *. rewrite !Qred_correct.
  by apply Q_div_within.
Qed.

(** X12: on a dictionary whose counts convert to floats and whose values
    under ['avg_place'] lie in the range of the floats (so that the division
    raises no [OverflowError]), the final pass raises [ZeroDivisionError]
    exactly when some entry has count 0; otherwise it keeps every bucket,
    every key and every count, puts under ['avg_place'] the exact quotient
    of its former value by the count, and the quotients lie in the range of
    the floats again. *)
Theorem final_pass (t : results) :
  (∀ rk k a, get t rk k = Some a → within_float_range a) →
  (finalize t = None ↔ ∃ rk k a, get t rk k = Some a ∧ count a = 0) ∧
  (∀ t', finalize t = Some t' →
     (∀ rk, is_Some (t' !! rk) ↔ is_Some (t !! rk)) ∧
     (∀ rk k, get t' rk k =
        (λ a, Aggregate (count a)
                (Float (to_Qc (avg_place a) / Qc_of_Z (count a))%Qc))
        <$> get t rk k) ∧
     (∀ rk k a', get t' rk k = Some a' → within_float_range a')).
Proof.
  intros Hrange. split.
  - split; [apply finalize_None|].
    intros (rk & k & a & Ha & Hc).
    destruct (finalize t) as [t'|] eqn:E; [|done].
    apply finalize_Some in E as [Hnz _]. by destruct (Hnz rk k a Ha).
  - intros t' [Hnz ->]%finalize_Some. split; [|split].
    + intros rk. apply averages_is_Some.
    + intros rk k. apply get_averages.
    + intros rk k a'. rewrite get_averages.
      destruct (get t rk k) as [a|] eqn:Ha; [|done]. intros [= <-].
      destruct (Hrange rk k a Ha) as [Hc Hq].
      split; [exact Hc|]. unfold average. cbn [avg_place to_Qc].
      apply quotient_within; [by eapply Hnz|exact Hq].
Qed.

Lemma six_over_two_get rk k a :
  get six_over_two rk k = Some a → a = Aggregate 2 (Int 6).
Proof.
  unfold get, six_over_two. intros H.
  destruct (decide (rk = KTotal)) as [->|Hrk].
  - rewrite lookup_singleton_eq in H. simpl in H.
    apply lookup_singleton_Some in H as [_ <-]. reflexivity.
  - rewrite lookup_singleton_ne in H by done. discriminate H.
Qed.

Lemma final_pass_witness :
  ∃ t', finalize six_over_two = Some t' ∧
    get t' KTotal "total"
      = Some (Aggregate 2 (Float (Qc_of_Z 6 / Qc_of_Z 2)%Qc)).
Proof.
  assert (∀ rk k a, get six_over_two rk k = Some a → within_float_range a)
    as Hrange.
  { intros rk k a ->%six_over_two_get. split.
    - intros H. discriminate H.
    - split; intros H; discriminate H. }
  destruct (final_pass six_over_two Hrange) as [Hnone Hsome].
  destruct (finalize six_over_two) as [t'|] eqn:E.
  - exists t'. split; [reflexivity|].
    destruct (Hsome t' eq_refl) as (_ & Hg & _). rewrite Hg. reflexivity.
  - destruct (proj1 Hnone eq_refl) as (rk & k & a & Ha & Hc).
    apply six_over_two_get in Ha. subst a. discriminate Hc.
Defined.

(** ** When the script stops *)

Lemma reduce_all_rejected l t :
  Forall has_duplicate_units l → reduce t l = Some t.
Proof.
  induction 1 as [|p l Hp _ IH]; [done|].
  simpl. by rewrite fold_player_rejected.
Qed.

(** X13: on a stream whose placements lie in the range of the floats (so
    that no average overflows), the reduce stage ends without a result
    exactly when the guard rejects every record of the stream, the empty
    stream included: the seeded entry then still has count 0 and the final
    pass divides by it.  When it ends with a result, every average lies in
    the range of the floats. *)
Theorem analysis_fails_iff_none_accepted (l : list player) :
  (∀ p, p ∈ l → Z.abs (placement p) ≤ max_float_int) →
  (analysis l = None ↔ Forall has_duplicate_units l) ∧
  (∀ t rk k a, analysis l = Some t → get t rk k = Some a →
     ∃ q, avg_place a = Float q ∧
          (Qc_of_Z (- max_float_int) ≤ q ≤ Qc_of_Z max_float_int)%Qc).
Proof.
  intros Hl. split; [split|].
  - intros E. destruct (decide (Forall has_duplicate_units l)) as [|Hn]; [done|].
    apply not_Forall_Exists in Hn; [|apply _].
    apply Exists_exists in Hn as (p & Hp & Hacc).
    destruct (analysis_is_Some l) as [t Ht]; [|congruence].
    exists p. split; [exact Hp|exact Hacc].
  - intros Hall. unfold analysis. rewrite reduce_all_rejected by done.
    simpl. apply eq_None_not_Some. intros [t [Hnz _]%finalize_Some].
    by apply (Hnz KTotal "total"%string (Aggregate 0 (Int 0))).
  - intros t rk k a (t0 & E0 & Hnz & ->)%analysis_Some.
    rewrite get_averages.
    destruct (get t0 rk k) as [a0|] eqn:Ha0; [|done]. intros [= <-].
    eexists. split; [done|].
    pose proof (Hnz rk k a0 Ha0) as Hc.
    destruct (reduce_init l) as (t1 & E1 & _ & Hg).
    rewrite E0 in E1. simplify_eq. rewrite Hg in Ha0.
    apply entry_Some in Ha0 as [Hcount Hsum]. rewrite Hcount, Hsum in *.
    cbn [to_Qc].
    assert (∀ p, p ∈ l → - max_float_int ≤ placement p ≤ max_float_int)
      as Hl' by (intros p Hp; specialize (Hl p Hp); lia).
    pose proof (psum_bounds (- max_float_int) max_float_int l (rk, k) Hl').
    apply quotient_bounds; lia.
Qed.

Lemma analysis_fails_iff_none_accepted_witness :
  analysis [ashe_jinx; ashe_alone] = None ↔
  Forall has_duplicate_units [ashe_jinx; ashe_alone].
Proof.
  apply (analysis_fails_iff_none_accepted [ashe_jinx; ashe_alone]).
  intros p Hp.
  apply elem_of_cons in Hp as [->|Hp]; [intros H; discriminate H|].
  apply elem_of_cons in Hp as [->|Hp]; [intros H; discriminate H|].
  apply elem_of_nil in Hp. destruct Hp.
Defined.

(** ** The averages *)

Lemma psum_plain l rk k :
  (∀ p, p ∈ l → accepted p → plain_keys p) →
  psum l (rk, k) = Zsum (placement <$> filter (observed rk k) l).
Proof.
  induction l as [|p l IH]; intros Hl; [done|].
  rewrite psum_cons, IH by (intros q Hq; apply Hl; by right).
  destruct (decide (has_duplicate_units p)) as [Hdup|Hacc].
  - rewrite filter_cons_False; [done|]. intros [[Hacc _] _]. by apply Hacc.
  - rewrite mult_targets_plain by (apply Hl; [apply list_elem_of_here|done]).
    destruct (decide (rk = KTotal ∨ rk = KRound (last_round p))) as [Hrk|Hrk].
    + destruct (decide (k = "total"%string ∨ k ∈ keys_list p)) as [Hk|Hk].
      * rewrite filter_cons_True by done. rewrite fmap_cons, Zsum_cons. lia.
      * rewrite filter_cons_False; [done|]. by intros [_ ?].
    + rewrite filter_cons_False; [done|]. by intros [[_ ?] _].
Qed.

(** X14: when the champion names of every accepted record are pairwise
    different and none is the word ['total'], the average the final pass
    leaves under [results[r][c]] is the sum of the placements of the accepted
    records that end at round [r] with [c] among their keys, divided by their
    number. *)
Theorem average_is_mean (l : list player) (t : results) :
  (∀ p, p ∈ l → accepted p → plain_keys p) →
  analysis l = Some t →
  ∀ rk k a, get t rk k = Some a →
    avg_place a =
      Float (Qc_of_Z (Zsum (placement <$> filter (observed rk k) l))
             / Qc_of_Z (Z.of_nat (length (filter (observed rk k) l))))%Qc.
Proof.
  intros Hl (t0 & E0 & _ & ->)%analysis_Some rk k a.
  rewrite get_averages.
  destruct (get t0 rk k) as [a0|] eqn:Ha0; [|done]. intros [= <-].
  destruct (reduce_init l) as (t1 & E1 & _ & Hg).
  rewrite E0 in E1. simplify_eq. rewrite Hg in Ha0.
  apply entry_Some in Ha0 as [Hc Hs].
  unfold average. cbn [avg_place]. rewrite Hc, Hs. cbn [to_Qc].
  by rewrite incs_plain, psum_plain.
Qed.

Lemma average_is_mean_witness :
  ∃ t, analysis [ashe_jinx; ashe_alone] = Some t ∧
    ∀ rk k a, get t rk k = Some a →
      avg_place a =
        Float (Qc_of_Z (Zsum (placement <$>
                 filter (observed rk k) [ashe_jinx; ashe_alone]))
               / Qc_of_Z (Z.of_nat (length
                   (filter (observed rk k) [ashe_jinx; ashe_alone]))))%Qc.
Proof.
  destruct (analysis_is_Some [ashe_jinx; ashe_alone]) as [t E].
  { exists ashe_jinx. split; [apply list_elem_of_here|apply ashe_jinx_accepted]. }
  exists t. split; [exact E|].
  apply (average_is_mean [ashe_jinx; ashe_alone] t); [|exact E]. clear E.
  intros p Hp _. unfold plain_keys.
  apply elem_of_cons in Hp as [->|Hp].
  { split; apply (bool_decide_unpack _); vm_compute; exact I. }
  apply elem_of_cons in Hp as [->|Hp].
  { split; apply (bool_decide_unpack _); vm_compute; exact I. }
  apply elem_of_nil in Hp. destruct Hp.
Defined.

(** ** The guard and [num_units] *)

(** X15: the guard accepts a record only when [num_units] is the number of
    its different unit identifiers; [num_units] is then at most the length of
    [units], and equal to it exactly when no identifier occurs twice. *)
Theorem guard_num_units (p : player) :
  accepted p →
  num_units p = Z.of_nat (size (list_to_set (units p) : gset string)) ∧
  0 ≤ num_units p ≤ Z.of_nat (length (units p)) ∧
  (num_units p = Z.of_nat (length (units p)) ↔ NoDup (units p)).
Proof.
  intros Hacc.
  assert (num_units p = Z.of_nat (size (list_to_set (units p) : gset string)))
    as Hn.
  { destruct (decide (Z.of_nat (size (list_to_set (units p) : gset string))
                      = num_units p)) as [?|Hne]; [done|]. by destruct Hacc. }
  pose proof (distinct_le (units p)) as Hle.
  split; [done|]. split; [lia|].
  rewrite <-distinct_NoDup. lia.
Qed.

Lemma guard_num_units_witness :
  num_units ashe_jinx = Z.of_nat (length (units ashe_jinx)) ↔
  NoDup (units ashe_jinx).
Proof. apply (guard_num_units ashe_jinx ashe_jinx_accepted). Defined.
